(** * The profile README generator ([scripts/generate-readme.js])

    A shallow embedding of the script that aggregates the advisory list
    ([src/data/cves.json]) and the blog posts ([src/content/blog]) into
    [dist/github-profile-readme.md], and the properties of its output.

    JavaScript strings are sequences of UTF-16 code units; they are
    modelled as lists of code units so that the regular expressions of the
    script ([.], [\s], [[\s\S]]) keep their exact meaning. *)

From Stdlib Require Import String Ascii.
From Stdlib Require Import List ZArith NArith Lia Bool.
From Stdlib Require Import Permutation Sorted.
Import ListNotations.

Set Implicit Arguments.

Open Scope string_scope.
Open Scope list_scope.

(** ** JavaScript strings *)

Module JS.

Definition char := N.
Definition jsstring := list char.

(** An ASCII literal of the source, as a JavaScript string. *)
Definition js (s : string) : jsstring :=
  map N_of_ascii (list_ascii_of_string s).

Definition LF : char := 10%N.
Definition newline : jsstring := [LF].

Fixpoint eqb (a b : jsstring) : bool :=
  match a, b with
  | [], [] => true
  | x :: a', y :: b' => (x =? y)%N && eqb a' b'
  | _, _ => false
  end.

(** [startsWith s p] *)
Fixpoint startsWith (s p : jsstring) {struct p} : bool :=
  match p, s with
  | [], _ => true
  | x :: p', y :: s' => (x =? y)%N && startsWith s' p'
  | _ :: _, [] => false
  end.

(** [s.indexOf(p)]: the position of the first occurrence, if any. *)
Fixpoint indexOf (s p : jsstring) : option nat :=
  if startsWith s p then Some 0
  else match s with
       | [] => None
       | _ :: s' => option_map S (indexOf s' p)
       end.

(** [s.endsWith(p)] *)
Definition endsWith (s p : jsstring) : bool :=
  (length p <=? length s)%nat && eqb (skipn (length s - length p) s) p.

(** [s.replace(p, r)] with a string pattern: only the first occurrence of
    [p] is replaced (the replacement used by the script is the empty
    string, which has no [$] pattern). *)
Definition replace (s p r : jsstring) : jsstring :=
  match indexOf s p with
  | None => s
  | Some i => firstn i s ++ r ++ skipn (i + length p) s
  end.

(** [s.replace(/c/g, d)] for a one-character pattern. *)
Definition replaceAllChar (s : jsstring) (c d : char) : jsstring :=
  map (fun x => if (x =? c)%N then d else x) s.

(** The lexicographic order of the code units of two strings, by its
    sign: the order of [<] on strings.  It is not the order of
    [localeCompare], which is a parameter of the generator below. *)
Fixpoint codeUnitCompare (a b : jsstring) : Z :=
  match a, b with
  | [], [] => 0
  | [], _ :: _ => -1
  | _ :: _, [] => 1
  | x :: a', y :: b' =>
      match (x ?= y)%N with
      | Lt => -1
      | Gt => 1
      | Eq => codeUnitCompare a' b'
      end
  end%Z.

End JS.

Import JS.

(** ** Regular expressions

    The three patterns of the script have the shape [pre (group) post],
    where each part is a sequence of character tests and starred character
    classes.  The matcher is the usual backtracking one: a greedy star
    tries the longest repetition first, a lazy star the shortest. *)

Module Regex.

Inductive node :=
| Bol                                   (* ^  (no [m] flag) *)
| Chr (p : char -> bool)                (* a literal or a class *)
| Star (greedy : bool) (p : char -> bool).

(** A literal character, a literal string. *)
Definition lit (c : char) : node := Chr (N.eqb c).
Definition lits (s : string) : list node := map lit (js s).

(** [x+] is [xx*], [x+?] is [xx*?]. *)
Definition plus (greedy : bool) (p : char -> bool) : list node :=
  [Chr p; Star greedy p].

(** [\s]: WhiteSpace and LineTerminator code units. *)
Definition is_space (c : char) : bool :=
  ((9 <=? c) && (c <=? 13) || (c =? 32) || (c =? 160) || (c =? 5760)
   || ((8192 <=? c) && (c <=? 8202)) || (c =? 8232) || (c =? 8233)
   || (c =? 8239) || (c =? 8287) || (c =? 12288) || (c =? 65279))%N.

(** [.]: anything but a line terminator. *)
Definition is_dot (c : char) : bool :=
  negb ((c =? 10) || (c =? 13) || (c =? 8232) || (c =? 8233))%N.

(** [[\s\S]] *)
Definition is_any (c : char) : bool := is_space c || negb (is_space c).

(** The class of the two quote characters, double (34) and single (39). *)
Definition is_quote (c : char) : bool := ((c =? 34) || (c =? 39))%N.

Section Matcher.
Variable R : Type.

Fixpoint star_greedy (p : char -> bool) (k : nat -> jsstring -> option R)
         (pos : nat) (s : jsstring) : option R :=
  match s with
  | c :: s' =>
      if p c then
        match star_greedy p k (S pos) s' with
        | Some r => Some r
        | None => k pos s
        end
      else k pos s
  | [] => k pos s
  end.

Fixpoint star_lazy (p : char -> bool) (k : nat -> jsstring -> option R)
         (pos : nat) (s : jsstring) : option R :=
  match k pos s with
  | Some r => Some r
  | None =>
      match s with
      | c :: s' => if p c then star_lazy p k (S pos) s' else None
      | [] => None
      end
  end.

Fixpoint run (r : list node) (k : nat -> jsstring -> option R)
         (pos : nat) (s : jsstring) : option R :=
  match r with
  | [] => k pos s
  | Bol :: r' => if Nat.eqb pos 0 then run r' k pos s else None
  | Chr p :: r' =>
      match s with
      | c :: s' => if p c then run r' k (S pos) s' else None
      | [] => None
      end
  | Star g p :: r' =>
      (if g then star_greedy else star_lazy) p (run r' k) pos s
  end.
End Matcher.

Record regex := { pre : list node; group : list node; post : list node }.

(** The match array: [m[0]] and [m[1]]. *)
Record match_array := { m0 : jsstring; m1 : jsstring }.

Definition match_at (re : regex) (pos : nat) (s : jsstring) : option match_array :=
  run (pre re)
      (fun p1 s1 =>
         run (group re)
             (fun p2 s2 =>
                run (post re)
                    (fun p3 _ =>
                       Some {| m0 := firstn (p3 - pos) s;
                               m1 := firstn (p2 - p1) s1 |})
                    p2 s2)
             p1 s1)
      pos s.

(** The search of [RegExp.prototype.exec] without [g] or [y]: the first
    start position, from 0 to the length of the input, at which the
    pattern matches. *)
Fixpoint search (re : regex) (pos : nat) (s : jsstring) : option match_array :=
  match match_at re pos s with
  | Some m => Some m
  | None =>
      match s with
      | [] => None
      | _ :: s' => search re (S pos) s'
      end
  end.

(** [s.match(re)] *)
Definition match_ (s : jsstring) (re : regex) : option match_array :=
  search re 0 s.

End Regex.

Import Regex.

(** ** The patterns of the script *)

(** [/^---\n([\s\S]*?)\n---/] *)
Definition frontmatter_re : regex :=
  {| pre := Bol :: lits "---" ++ [lit LF];
     group := [Star false is_any];
     post := lit LF :: lits "---" |}.

(** [/title:\s*Q(.+?)Q/], where [Q] is the class of the two quote
    characters. *)
Definition title_re : regex :=
  {| pre := lits "title:" ++ [Star true is_space; Chr is_quote];
     group := plus false is_dot;
     post := [Chr is_quote] |}.

(** [/date:\s*(.+)/] *)
Definition date_re : regex :=
  {| pre := lits "date:" ++ [Star true is_space];
     group := plus true is_dot;
     post := [] |}.

(** ** Numbers, dates and [Array.prototype.sort] *)

(** The numbers the script computes with are time values (integers) and
    their differences; [NaN] is the time value of an invalid date.  The
    sign of a floating-point difference of two finite numbers is the sign
    of the exact difference, which is all a comparator is used for. *)
Inductive number := NaN | Num (z : Z).

(** [a - b] *)
Definition minus (a b : number) : number :=
  match a, b with
  | Num x, Num y => Num (x - y)
  | _, _ => NaN
  end.

(** [a < b] and [a >= b] on numbers: false as soon as one side is [NaN]. *)
Definition lt (a b : number) : bool :=
  match a, b with
  | Num x, Num y => (x <? y)%Z
  | _, _ => false
  end.

Definition ge (a b : number) : bool :=
  match a, b with
  | Num x, Num y => (y <=? x)%Z
  | _, _ => false
  end.

Module Array.
Section Sort.
Variable A : Type.
Variable comparefn : A -> A -> number.

(** SortCompare: a [NaN] result of the comparator counts as [+0]. *)
Definition SortCompare (x y : A) : Z :=
  match comparefn x y with
  | NaN => 0
  | Num v => v
  end.

(** [x] was before every element of [l] in the input: it stays before
    the first element it does not have to follow. *)
Fixpoint insert (x : A) (l : list A) : list A :=
  match l with
  | [] => [x]
  | y :: l' => if (SortCompare x y <=? 0)%Z then x :: l else y :: insert x l'
  end.

(** [l.sort(comparefn)].  The sort of ECMAScript is stable, and for a
    comparator that is consistent on the elements its result is fully
    determined; it is computed here by a stable insertion sort.  For a
    comparator that is not consistent (the dates of the posts with an
    invalid date among them) the language leaves the order to the engine,
    and this definition gives one rearrangement among those an engine may
    return; it is the input itself when the input is in order already,
    which is also what the run detection of V8 returns.  The properties
    below that speak of the order are stated for consistent comparators
    or for such inputs; the others hold of every rearrangement. *)
Fixpoint sort (l : list A) : list A :=
  match l with
  | [] => []
  | x :: l' => insert x (sort l')
  end.
End Sort.

(** [l.filter(Boolean)] on a list of objects or [null]. *)
Fixpoint filter_Boolean (A : Type) (l : list (option A)) : list A :=
  match l with
  | [] => []
  | Some x :: l' => x :: filter_Boolean l'
  | None :: l' => filter_Boolean l'
  end.
End Array.

(** ** The content directory *)

(** A directory entry as [readdirSync] and [statSync] show it: a name, and
    either the entries of a directory or the text of a file (what
    [readFileSync(path, 'utf-8')] returns for it). *)
#[warnings="-register-all"] Inductive entry :=
| File (name : jsstring) (text : jsstring)
| Dir (name : jsstring) (entries : list entry).

Inductive platform := posix | win32.

(** [path.sep]: a slash, or a backslash on Windows. *)
Definition sep (pf : platform) : jsstring :=
  match pf with
  | posix => [47%N]
  | win32 => [92%N]
  end.

(** [relative(baseDir, fullPath)] where [fullPath] is [baseDir] joined
    with the names [segs] of a chain of entries: the names separated by
    [path.sep]. *)
Fixpoint relative (pf : platform) (segs : list jsstring) : jsstring :=
  match segs with
  | [] => []
  | [name] => name
  | name :: rest => name ++ sep pf ++ relative pf rest
  end.

(** The objects pushed by [findMarkdownFiles]: the file is identified by
    [relativePath], and [content] is what reading [fullPath] returns. *)
Record mdfile := { relativePath : jsstring; content : jsstring }.

(** [findMarkdownFiles(dir, baseDir)] for one entry of [dir], where [dir]
    is the chain of names from [baseDir] down to the directory. *)
Fixpoint find_entry (pf : platform) (dir : list jsstring) (e : entry) : list mdfile :=
  match e with
  | Dir name entries => flat_map (find_entry pf (dir ++ [name])) entries
  | File name text =>
      if endsWith name (js ".md")
      then [{| relativePath := relative pf (dir ++ [name]); content := text |}]
      else []
  end.

Definition findMarkdownFiles (pf : platform) (dir : list jsstring)
           (entries : list entry) : list mdfile :=
  flat_map (find_entry pf dir) entries.

(** ** Post records *)

Record post := { title : jsstring; date : number; slug : jsstring }.

(** [m?.[1] || ''] *)
Definition group_or_empty (m : option match_array) : jsstring :=
  match m with
  | Some a => m1 a
  | None => []
  end.

(** [s.replace(/\\/g, '/')] *)
Definition slashes (s : jsstring) : jsstring := replaceAllChar s 92%N 47%N.

(** [relativePath.replace('.md', '').replace(/\\/g, '/')] *)
Definition slug_of (relativePath : jsstring) : jsstring :=
  slashes (replace relativePath (js ".md") []).

(** The fixed site prefix of post links. *)
Definition site_prefix : jsstring := js "https://jomar.fr/blog/".

(** The link target written for a post. *)
Definition post_url (p : post) : jsstring := site_prefix ++ slug p ++ js "/".

(** One item of the post list. *)
Definition post_line (p : post) : jsstring :=
  js "  * [" ++ title p ++ js "](" ++ post_url p ++ js ")" ++ newline.

(** ** Advisory records and the grouping object *)

(** An advisory of [cves.json], at the shape the script relies on: the
    fields [id], [date] (the year), [link], [type] and [target], all
    strings. *)
Record cve := {
  cve_id : jsstring;
  cve_date : jsstring;
  cve_link : jsstring;
  cve_type : jsstring;
  cve_target : jsstring
}.

(** Exceptions are not caught anywhere in the script: the first one ends
    the run. *)
Inductive error := ENOENT | SyntaxError | TypeError.

Inductive completion (A : Type) :=
| Normal (a : A)
| Throw (e : error).
Arguments Normal {A} a.
Arguments Throw {A} e.

Definition bind (A B : Type) (c : completion A) (k : A -> completion B) : completion B :=
  match c with
  | Normal a => k a
  | Throw e => Throw e
  end.

Notation "x <- c ;; k" := (bind c (fun x => k))
  (at level 61, c at next level, right associativity).

(** [l.reduce(f, init)] with a callback that may throw. *)
Fixpoint reduce (A B : Type) (f : B -> A -> completion B) (l : list A) (init : B)
  : completion B :=
  match l with
  | [] => Normal init
  | x :: l' => acc <- f init x ;; reduce f l' acc
  end.

Module Obj.

(** The accumulator [{}] of the grouping: its own properties in creation
    order, each holding an array of advisories. *)
Definition t := list (jsstring * list cve).

(** The property names an object literal inherits from
    [Object.prototype]; each holds a function, or the prototype itself for
    [__proto__]. *)
Definition prototype : list jsstring :=
  map js ["constructor"; "__defineGetter__"; "__defineSetter__";
          "hasOwnProperty"; "__lookupGetter__"; "__lookupSetter__";
          "isPrototypeOf"; "propertyIsEnumerable"; "toString"; "valueOf";
          "__proto__"; "toLocaleString"].

Inductive value :=
| undefined
| array (l : list cve)
| inherited.

Fixpoint own (o : t) (k : jsstring) : option (list cve) :=
  match o with
  | [] => None
  | (k', v) :: o' => if eqb k k' then Some v else own o' k
  end.

(** [o[k]] *)
Definition get (o : t) (k : jsstring) : value :=
  match own o k with
  | Some l => array l
  | None => if existsb (eqb k) prototype then inherited else undefined
  end.

(** [o[k] = v] where [v] is an array: an own property keeps its place, a
    new one is created last. *)
Fixpoint set (o : t) (k : jsstring) (v : list cve) : t :=
  match o with
  | [] => [(k, v)]
  | (k', v') :: o' => if eqb k k' then (k', v) :: o' else (k', v') :: set o' k v
  end.

(** [!v] *)
Definition falsy (v : value) : bool :=
  match v with
  | undefined => true
  | _ => false
  end.

Fixpoint digits (s : jsstring) (acc : N) : option N :=
  match s with
  | [] => Some acc
  | c :: s' =>
      if ((48 <=? c) && (c <=? 57))%N then digits s' (10 * acc + (c - 48))%N
      else None
  end.

(** An array index: a canonical numeric string below [2^32 - 1]. *)
Definition array_index (k : jsstring) : option N :=
  match k with
  | [] => None
  | c :: rest =>
      if (c =? 48)%N && negb (match rest with [] => true | _ => false end) then None
      else match digits k 0 with
           | Some n => if (n <? 4294967295)%N then Some n else None
           | None => None
           end
  end.

Definition is_index (k : jsstring) : bool :=
  match array_index k with Some _ => true | None => false end.

Definition index_value (k : jsstring) : Z :=
  match array_index k with Some n => Z.of_N n | None => 0 end.

(** [Object.keys(o)]: the array indices in ascending numeric order, then
    the other names in creation order. *)
Definition keys (o : t) : list jsstring :=
  let own_keys := map fst o in
  Array.sort (fun a b => Num (index_value a - index_value b))
             (filter is_index own_keys)
  ++ filter (fun k => negb (is_index k)) own_keys.

End Obj.

(** The callback of the grouping [reduce]. *)
Definition group_step (acc : Obj.t) (c : cve) : completion Obj.t :=
  let year := cve_date c in
  let acc := if Obj.falsy (Obj.get acc year) then Obj.set acc year [] else acc in
  match Obj.get acc year with
  | Obj.array l => Normal (Obj.set acc year (l ++ [c]))
  | _ => Throw TypeError
  end.

(** [cves.reduce(..., {})] *)
Definition cvesByYear (cves : list cve) : completion Obj.t :=
  reduce group_step cves [].

(** One advisory item. *)
Definition cve_line (c : cve) : jsstring :=
  js "  * [" ++ cve_id c ++ js "](" ++ cve_link c ++ js ") - " ++ cve_type c
  ++ js " in [" ++ cve_target c ++ js "](" ++ cve_link c ++ js ")" ++ newline.

(** [cvesByYear[year]] for a year taken from the keys of the object. *)
Definition group_of (o : Obj.t) (year : jsstring) : list cve :=
  match Obj.get o year with
  | Obj.array l => l
  | _ => []
  end.

(** The collapsible block of one year. *)
Definition year_block (o : Obj.t) (year : jsstring) : jsstring :=
  js "<details>" ++ newline ++ js "  <summary>" ++ year ++ js "</summary>"
  ++ newline ++ newline
  ++ concat (map cve_line (group_of o year))
  ++ js "</details>" ++ newline ++ newline.

(** ** The script *)

(** The run reads the advisory file, walks the content directory and
    writes one file.  The entries below the content root are taken as
    readable and the output directory as present: the failures of the run
    that are modelled are those of the advisory file and of the grouping. *)

(** [src/data/cves.json] as the first statement of the script finds it:
    [readFileSync] throws on a file it cannot read, [JSON.parse] throws on
    a text that is not JSON, and otherwise the advisory array is loaded.
    The JSON texts taken here are arrays of advisory records with their
    five fields as strings, the shape of the file of the repository; the
    other JSON values are outside the model. *)
Inductive cves_file :=
| unreadable
| malformed
| parsed (cves : list cve).

Record world := {
  os : platform;
  cves_json : cves_file;
  (** the entries of [src/content/blog] *)
  blog : list entry;
  (** [dist/github-profile-readme.md]: its text, or [None] while absent *)
  output : option jsstring
}.

Section Generator.
(** The built-ins the script calls.  [Date_parse s] is the time value of
    [new Date(s)], [NaN] for an invalid date; [localeCompare a b] is
    [a.localeCompare(b)]. *)
Variable Date_parse : jsstring -> number.
Variable localeCompare : jsstring -> jsstring -> Z.

(** The three literal fragments of the template: up to the post list,
    between the post list and the advisory blocks, and after them. *)
Variables readme_head readme_mid readme_tail : jsstring.

(** The callback of [blogFiles.map]. *)
Definition post_of (f : mdfile) : option post :=
  match match_ (content f) frontmatter_re with
  | None => None
  | Some frontmatterMatch =>
      let frontmatter := m1 frontmatterMatch in
      let title := group_or_empty (match_ frontmatter title_re) in
      let dateMatch := group_or_empty (match_ frontmatter date_re) in
      let date := Date_parse dateMatch in
      let slug := slug_of (relativePath f) in
      Some {| title := title; date := date; slug := slug |}
  end.

(** [(a, b) => b.date - a.date] *)
Definition by_date (a b : post) : number := minus (date b) (date a).

Definition blogPosts (blogFiles : list mdfile) : list post :=
  Array.sort by_date (Array.filter_Boolean (map post_of blogFiles)).

(** [(a, b) => b.localeCompare(a)] *)
Definition by_locale (a b : jsstring) : number := Num (localeCompare b a).

Definition years (o : Obj.t) : list jsstring :=
  Array.sort by_locale (Obj.keys o).

(** The two generated fragments. *)
Definition post_list (posts : list post) : jsstring :=
  concat (map post_line posts).

Definition cve_blocks (o : Obj.t) : jsstring :=
  concat (map (year_block o) (years o)).

Definition readme (posts : list post) (o : Obj.t) : jsstring :=
  readme_head ++ post_list posts ++ readme_mid ++ cve_blocks o ++ readme_tail.

(** [JSON.parse(readFileSync(join(rootDir, 'src/data/cves.json'), 'utf-8'))] *)
Definition load_cves (w : world) : completion (list cve) :=
  match cves_json w with
  | unreadable => Throw ENOENT
  | malformed => Throw SyntaxError
  | parsed cves => Normal cves
  end.

(** The whole script, top to bottom. *)
Definition main (w : world) : completion world :=
  cves <- load_cves w ;;
  let blogFiles := findMarkdownFiles (os w) [] (blog w) in
  let posts := blogPosts blogFiles in
  o <- cvesByYear cves ;;
  Normal {| os := os w; cves_json := cves_json w; blog := blog w;
            output := Some (readme posts o) |}.

(** The exit status of the process and the files it leaves. *)
Definition exit_code (w : world) : Z :=
  match main w with
  | Normal _ => 0
  | Throw _ => 1
  end.

Definition after (w : world) : world :=
  match main w with
  | Normal w' => w'
  | Throw _ => w
  end.
End Generator.

(** ** Instances of the built-ins, for concrete runs *)

Module Instance.

Definition digit (c : char) : option Z :=
  if ((48 <=? c) && (c <=? 57))%N then Some (Z.of_N c - 48)%Z else None.

Fixpoint number_of (s : jsstring) (acc : Z) : option Z :=
  match s with
  | [] => Some acc
  | c :: s' =>
      match digit c with
      | Some d => number_of s' (10 * acc + d)%Z
      | None => None
      end
  end.

(** Days from 1970-01-01 to a civil date. *)
Definition days_from_civil (y m d : Z) : Z :=
  let y' := (if m <=? 2 then y - 1 else y)%Z in
  let era := (y' / 400)%Z in
  let yoe := (y' - era * 400)%Z in
  let mp := (if 2 <? m then m - 3 else m + 9)%Z in
  let doy := ((153 * mp + 2) / 5 + d - 1)%Z in
  let doe := (yoe * 365 + yoe / 4 - yoe / 100 + doy)%Z in
  (era * 146097 + doe - 719468)%Z.

(** The time value of the UTC midnight of [YYYY-MM-DD].  As in V8, a day
    from 1 to 31 is accepted in every month and carries over into the next
    month. *)
Definition civil (s : jsstring) : option Z :=
  match s with
  | [y1; y2; y3; y4; d1; mo1; mo2; d2; da1; da2] =>
      if ((d1 =? 45) && (d2 =? 45))%N then
        match number_of [y1; y2; y3; y4] 0, number_of [mo1; mo2] 0,
              number_of [da1; da2] 0 with
        | Some y, Some m, Some d =>
            if ((1 <=? m) && (m <=? 12) && (1 <=? d) && (d <=? 31))%Z
            then Some (days_from_civil y m d * 86400000)%Z
            else None
        | _, _, _ => None
        end
      else None
  | _ => None
  end.

(** The milliseconds of [HH:mm:ss] into the day. *)
Definition clock (s : jsstring) : option Z :=
  match s with
  | [h1; h2; c1; m1; m2; c2; s1; s2] =>
      if ((c1 =? 58) && (c2 =? 58))%N then
        match number_of [h1; h2] 0, number_of [m1; m2] 0, number_of [s1; s2] 0 with
        | Some h, Some m, Some sec =>
            if ((h <=? 23) && (m <=? 59) && (sec <=? 59)
                || (h =? 24) && (m =? 0) && (sec =? 0))%Z
            then Some ((h * 3600 + m * 60 + sec) * 1000)%Z
            else None
        | _, _, _ => None
        end
      else None
  | _ => None
  end.

(** The milliseconds a zone [Z], [+HH:mm] or [-HH:mm] is ahead of UTC. *)
Definition zone (s : jsstring) : option Z :=
  match s with
  | [z] => if (z =? 90)%N then Some 0%Z else None
  | [sign; h1; h2; c; m1; m2] =>
      if (c =? 58)%N then
        match number_of [h1; h2] 0, number_of [m1; m2] 0 with
        | Some h, Some m =>
            if ((h <=? 23) && (m <=? 59))%Z then
              if (sign =? 43)%N then Some ((h * 60 + m) * 60000)%Z
              else if (sign =? 45)%N then Some (- ((h * 60 + m) * 60000))%Z
              else None
            else None
        | _, _ => None
        end
      else None
  | _ => None
  end.

(** [Date.parse] on the ISO forms the posts use: the date-only form
    [YYYY-MM-DD], read as UTC midnight, and the form
    [YYYY-MM-DDTHH:mm:ss] followed by [Z] or by an offset [+HH:mm] or
    [-HH:mm]; the empty string is no date.  The other forms engines accept
    (a local time, fractions of a second, the legacy formats) are outside
    this instance, which is used on the two forms above. *)
Definition Date_parse (s : jsstring) : number :=
  match civil (firstn 10 s), skipn 10 s with
  | Some day, [] => Num day
  | Some day, t :: rest =>
      if (t =? 84)%N then
        match clock (firstn 8 rest), zone (skipn 8 rest) with
        | Some time, Some ahead => Num (day + time - ahead)
        | _, _ => NaN
        end
      else NaN
  | None, _ => NaN
  end.

(** [a.localeCompare(b)] with the default collation, on strings of ASCII
    letters and digits.  The strings are compared first with the case of
    the letters ignored, digits before letters and a string before its
    extensions; strings that are equal so far are compared by case, lower
    before upper at the first difference.  The result is -1, 0 or 1.  The
    other characters have their own places in the tables of the collation;
    here they keep their code units, and the instance is used on letters
    and digits only. *)
Definition is_upper (c : char) : bool := ((65 <=? c) && (c <=? 90))%N.

Definition primary (c : char) : char := if is_upper c then (c + 32)%N else c.

Definition tertiary (c : char) : char := if is_upper c then 1%N else 0%N.

Definition localeCompare (a b : jsstring) : Z :=
  match codeUnitCompare (map primary a) (map primary b) with
  | Z0 => codeUnitCompare (map tertiary a) (map tertiary b)
  | z => z
  end.

End Instance.

(** ** Vocabulary of the properties *)

(** [x] may stay before [y] in the result of a sort by [comparefn]. *)
Definition before (A : Type) (comparefn : A -> A -> number) (x y : A) : Prop :=
  (Array.SortCompare comparefn x y <= 0)%Z.

(** [x] and [y] may stay before one another: the sort must keep their
    input order. *)
Definition equivb (A : Type) (comparefn : A -> A -> number) (x y : A) : bool :=
  ((Array.SortCompare comparefn x y <=? 0)
   && (Array.SortCompare comparefn y x <=? 0))%Z.

(** The header block in plain terms: the document begins with a line
    [---], and the block is the text from there up to the first line feed
    that is followed by [---]. *)
Definition header_block (content : jsstring) : option jsstring :=
  if startsWith content (js "---" ++ newline) then
    match indexOf (skipn 4 content) (newline ++ js "---") with
    | Some i => Some (firstn i (skipn 4 content))
    | None => None
    end
  else None.

(** Whether a year names a property of [Object.prototype]. *)
Definition inherited_name (k : jsstring) : bool := existsb (eqb k) Obj.prototype.

(** The advisories of one year, in input order. *)
Definition of_year (k : jsstring) (cves : list cve) : list cve :=
  filter (fun c => eqb (cve_date c) k) cves.

(** What the accumulator holds once the advisories [seen] are grouped. *)
Definition grouped (seen : list cve) (o : Obj.t) : Prop :=
  NoDup (map fst o) /\
  forall k, Obj.own o k
            = if existsb (fun c => eqb (cve_date c) k) seen
              then Some (of_year k seen) else None.

(** A comparator that orders the strings [ks] consistently, as a
    collation does: the sign of [localeCompare a b] is the opposite of the
    sign of [localeCompare b a], and the order is transitive. *)
Definition collation (localeCompare : jsstring -> jsstring -> Z)
           (ks : list jsstring) : Prop :=
  (forall a b, In a ks -> In b ks ->
               ((localeCompare a b > 0)%Z <-> (localeCompare b a < 0)%Z)) /\
  (forall a b c, In a ks -> In b ks -> In c ks ->
                 (localeCompare a b <= 0)%Z -> (localeCompare b c <= 0)%Z ->
                 (localeCompare a c <= 0)%Z).

(** The years of the advisories, as the fields spell them. *)
Definition year_fields (cves : list cve) : list jsstring := map cve_date cves.

(** The text of one item of the post list and of one item of an advisory
    block, as the document shows them. *)
Definition post_item (p : post) : jsstring :=
  js "  * [" ++ title p ++ js "](https://jomar.fr/blog/" ++ slug p ++ js "/)"
  ++ newline.

Definition advisory_item (c : cve) : jsstring :=
  js "  * [" ++ cve_id c ++ js "](" ++ cve_link c ++ js ") - " ++ cve_type c
  ++ js " in [" ++ cve_target c ++ js "](" ++ cve_link c ++ js ")" ++ newline.

(** The heading and the closing of a year block. *)
Definition year_heading (year : jsstring) : jsstring :=
  js "<details>" ++ newline ++ js "  <summary>" ++ year ++ js "</summary>"
  ++ newline ++ newline.

Definition year_closing : jsstring := js "</details>" ++ newline ++ newline.

(** The block of one year as the document shows it: the heading of the
    year, then the items of the advisories of that year in the order of
    the input, then the closing. *)
Definition year_section (cves : list cve) (year : jsstring) : jsstring :=
  year_heading year ++ concat (map advisory_item (of_year year cves))
  ++ year_closing.

(** The document as a reader sees it: the opening fragment, one item for
    each post of [posts] from top to bottom, the middle fragment, one
    block for each year of [ys] from top to bottom, the closing fragment. *)
Definition document (head mid tail : jsstring) (posts : list post)
           (cves : list cve) (ys : list jsstring) : jsstring :=
  head ++ concat (map post_item posts) ++ mid
  ++ concat (map (year_section cves) ys) ++ tail.

(** Induction on directory entries, through the entries of a directory. *)
Section EntryInduction.
Variable P : entry -> Prop.
Hypothesis HF : forall name text, P (File name text).
Hypothesis HD : forall name entries, Forall P entries -> P (Dir name entries).

Fixpoint entry_induction (e : entry) : P e :=
  match e with
  | File name text => HF name text
  | Dir name entries =>
      HD name
         ((fix all (es : list entry) : Forall P es :=
             match es with
             | [] => Forall_nil P
             | e' :: es' => Forall_cons e' (entry_induction e') (all es')
             end) entries)
  end.
End EntryInduction.

(** The post records before the sort. *)
Definition records (Date_parse : jsstring -> number) (files : list mdfile) : list post :=
  Array.filter_Boolean (map (post_of Date_parse) files).

(** A post whose date parsed. *)
Definition valid (p : post) : Prop := date p <> NaN.

(** Each entry is at least as recent as every entry below it. *)
Definition non_increasing (posts : list post) : Prop :=
  StronglySorted (fun a b => ge (date a) (date b) = true) posts.

(** The posts of one date. *)
Definition dated (t : Z) (p : post) : bool :=
  match date p with
  | Num a => (a =? t)%Z
  | NaN => false
  end.

(** The slug as the specification words it: the relative path lowercased,
    its [.md] extension removed and its separators normalized. *)
Definition toLowerCase (s : jsstring) : jsstring :=
  map (fun c => if ((65 <=? c) && (c <=? 90))%N then (c + 32)%N else c) s.

Definition without_extension (s : jsstring) : jsstring :=
  if endsWith s (js ".md") then firstn (length s - 3) s else s.

Definition lowercased_slug (relativePath : jsstring) : jsstring :=
  toLowerCase (slashes (without_extension relativePath)).

(** ** Sample data *)

(** Lines joined by a line feed, to write documents in examples. *)
Definition unlines (l : list string) : jsstring :=
  concat (map (fun s => js s ++ newline) l).

Definition sample_doc : jsstring :=
  unlines ["---"; "title: 'Ethernaut - Dex Two'"; "date: 2025-05-18";
           "description: 'Solving the Ethernaut DEX Two challenge.'";
           "---"; ""; "In this article"].

Definition doc (header : list string) : jsstring :=
  unlines (["---"] ++ header ++ ["---"; ""; "Text."]).

Definition sample_blog : list entry :=
  [ File (js "wordpress.md") (doc ["title: 'Investigating'"; "date: 2026-01-07"]);
    Dir (js "2025")
        [ Dir (js "ethernaut_dex_two")
              [ File (js "index.md") (doc ["title: 'Ethernaut - Dex Two'"; "date: 2025-05-18"]);
                File (js "banner.png") (js "PNG") ];
          Dir (js "side_entrance")
              [ File (js "index.md") (doc ["title: 'Side Entrance'"; "date: 2025-04-14"]) ];
          File (js "draft.md") (js "No header here.") ];
    File (js "same-day.md") (doc ["title: 'Second of the day'"; "date: 2025-05-18"]) ].

Definition advisory (i year : string) : cve :=
  {| cve_id := js i; cve_date := js year; cve_link := js "https://example.org/" ++ js i;
     cve_type := js "XSS"; cve_target := js "Target" |}.

Definition sample_cves : list cve :=
  [ advisory "CVE-2023-1" "2023"; advisory "CVE-2024-1" "2024";
    advisory "CVE-2023-2" "2023"; advisory "CVE-2022-1" "2022" ].

Definition sample_world : world :=
  {| os := posix; cves_json := parsed sample_cves; blog := sample_blog;
     output := None |}.

(** The script with the instances of the built-ins and short fragments in
    place of the three literal parts of the template. *)
Definition sample_main : world -> completion world :=
  main Instance.Date_parse Instance.localeCompare (js "<head>") (js "<mid>") (js "<tail>").

(** The files after the sample run, and the sample site without its
    document that has no header block. *)
Definition sample_written : world :=
  after Instance.Date_parse Instance.localeCompare (js "<head>") (js "<mid>") (js "<tail>")
        sample_world.

Definition sample_world_without_draft : world :=
  {| os := posix; cves_json := parsed sample_cves;
     blog :=
       [ File (js "wordpress.md") (doc ["title: 'Investigating'"; "date: 2026-01-07"]);
         Dir (js "2025")
             [ Dir (js "ethernaut_dex_two")
                   [ File (js "index.md") (doc ["title: 'Ethernaut - Dex Two'"; "date: 2025-05-18"]);
                     File (js "banner.png") (js "PNG") ];
               Dir (js "side_entrance")
                   [ File (js "index.md") (doc ["title: 'Side Entrance'"; "date: 2025-04-14"]) ] ];
         File (js "same-day.md") (doc ["title: 'Second of the day'"; "date: 2025-05-18"]) ];
     output := None |}.

Definition sample_file (relativePath : string) (header : list string) : mdfile :=
  {| relativePath := js relativePath; content := doc header |}.

Definition ethernaut : mdfile :=
  sample_file "2025/ethernaut_dex_two/index.md"
              ["title: 'Ethernaut - Dex Two'"; "date: 2025-05-18"].

Definition draft : mdfile :=
  {| relativePath := js "2025/draft.md"; content := js "No header here." |}.


Definition sample_groups : Obj.t :=
  [ (js "2023", [advisory "CVE-2023-1" "2023"; advisory "CVE-2023-2" "2023"]);
    (js "2024", [advisory "CVE-2024-1" "2024"]);
    (js "2022", [advisory "CVE-2022-1" "2022"]) ].

(** ** The words of a pattern *)

(** The words a sequence of nodes accepts when it is tried at position
    [pos] of the input: [^] holds at position 0 only, a character test
    takes one character, a star any run of characters of its class. *)
Fixpoint accepts (pos : nat) (r : list node) (w : jsstring) : Prop :=
  match r with
  | [] => w = []
  | Bol :: r' => pos = 0 /\ accepts pos r' w
  | Chr p :: r' =>
      exists c w', w = c :: w' /\ p c = true /\ accepts (S pos) r' w'
  | Star _ p :: r' =>
      exists u v, w = u ++ v /\ forallb p u = true
                  /\ accepts (pos + length u) r' v
  end.

(** An occurrence of a pattern in an input: the input is [a], then a word
    of each of the three parts of the pattern, then [b]. *)
Definition occurs (re : regex) (s a w1 w2 w3 b : jsstring) : Prop :=
  s = a ++ w1 ++ w2 ++ w3 ++ b /\
  accepts (length a) (pre re) w1 /\
  accepts (length a + length w1) (group re) w2 /\
  accepts (length a + length w1 + length w2) (Regex.post re) w3.

(** ** Files of a directory tree *)

(** [file_at entries path text]: following the names of [path] from the
    entries of a directory, through directories, leads to a file whose
    text is [text]. *)
Inductive file_at : list entry -> list jsstring -> jsstring -> Prop :=
| at_file (entries : list entry) (name text : jsstring) :
    In (File name text) entries -> file_at entries [name] text
| at_dir (entries sub : list entry) (name : jsstring) (path : list jsstring)
         (text : jsstring) :
    In (Dir name sub) entries -> file_at sub path text ->
    file_at entries (name :: path) text.

(** The name of an entry, and the trees a file system can hold: no name
    contains the separator of the platform, and the names of the entries of
    one directory are different. *)
Definition name_of (e : entry) : jsstring :=
  match e with
  | File name _ => name
  | Dir name _ => name
  end.

Definition sep_char (pf : platform) : char :=
  match pf with
  | posix => 47%N
  | win32 => 92%N
  end.

Fixpoint well_formed (pf : platform) (e : entry) : Prop :=
  ~ In (sep_char pf) (name_of e) /\
  match e with
  | File _ _ => True
  | Dir _ entries =>
      NoDup (map name_of entries) /\
      (fix all (es : list entry) : Prop :=
         match es with
         | [] => True
         | e' :: es' => well_formed pf e' /\ all es'
         end) entries
  end.

(** The chains of names of the markdown files below an entry. *)
Fixpoint entry_paths (dir : list jsstring) (e : entry) : list (list jsstring) :=
  match e with
  | Dir name entries => flat_map (entry_paths (dir ++ [name])) entries
  | File name _ => if endsWith name (js ".md") then [dir ++ [name]] else []
  end.

(** [holds doc line]: the text [line] is written somewhere in [doc]. *)
Definition holds (doc line : jsstring) : Prop :=
  exists a b, doc = a ++ line ++ b.

(** * Lemmas *)

(** ** The model on examples *)

Example frontmatter_sample :
  option_map m1 (match_ sample_doc frontmatter_re)
  = Some (js "title: 'Ethernaut - Dex Two'" ++ newline ++ js "date: 2025-05-18"
          ++ newline ++ js "description: 'Solving the Ethernaut DEX Two challenge.'").
Proof. vm_compute. reflexivity. Qed.

Example title_sample :
  option_map m1 (match_ (js "title: 'Ethernaut - Dex Two'" ++ newline ++ js "date: 2025-05-18") title_re)
  = Some (js "Ethernaut - Dex Two").
Proof. vm_compute. reflexivity. Qed.

Example date_sample :
  option_map m1 (match_ (js "title: 'Ethernaut - Dex Two'" ++ newline ++ js "date: 2025-05-18" ++ newline ++ js "x: y") date_re)
  = Some (js "2025-05-18").
Proof. vm_compute. reflexivity. Qed.

Example date_epoch : Instance.Date_parse (js "1970-01-01") = Num 0.
Proof. reflexivity. Qed.
Example date_2025 : Instance.Date_parse (js "2025-05-18") = Num 1747526400000.
Proof. reflexivity. Qed.
Example date_leap : Instance.Date_parse (js "2024-02-29") = Num 1709164800000.
Proof. reflexivity. Qed.
Example date_before : Instance.Date_parse (js "1969-12-31") = Num (-86400000).
Proof. reflexivity. Qed.
Example date_empty : Instance.Date_parse [] = NaN.
Proof. reflexivity. Qed.
Example date_with_zone :
  Instance.Date_parse (js "2026-01-07T18:00:00+01:00") = Num 1767805200000
  /\ Instance.Date_parse (js "2026-01-07T17:00:00Z") = Num 1767805200000.
Proof. split; reflexivity. Qed.
Example date_carries :
  Instance.Date_parse (js "2025-02-30") = Instance.Date_parse (js "2025-03-02").
Proof. reflexivity. Qed.

(** The collation of the instance: digits before letters, a small letter
    before its capital, and the capitals not before the small letters as a
    whole. *)
Example collation_sample :
  map (fun ab => Instance.localeCompare (js (fst ab)) (js (snd ab)))
      [("2024", "a"); ("a", "b"); ("b", "B"); ("a", "B"); ("B", "a");
       ("2023", "2024"); ("2024", "2024"); ("aB", "Ab"); ("a", "ab")]
  = [-1; -1; -1; -1; 1; -1; 0; -1; -1]%Z.
Proof. reflexivity. Qed.

(** The title pattern is not anchored: it takes the first quoted value
    that follows any [title:], here the one of [subtitle:]. *)
Example title_first_match :
  option_map m1 (match_ (js "subtitle: 'Part one'" ++ newline ++ js "title: 'Hello'") title_re)
  = Some (js "Part one").
Proof. vm_compute. reflexivity. Qed.

(** [\s*] runs over line feeds: a date on the line after [date:] is found. *)
Example date_on_next_line :
  option_map m1 (match_ (js "date:" ++ newline ++ js "  2025-05-18" ++ newline) date_re)
  = Some (js "2025-05-18").
Proof. vm_compute. reflexivity. Qed.

(** A document with carriage returns before its line feeds has no header
    block for the script. *)
Example crlf_document :
  match_ (js "---" ++ [13; 10]%N ++ js "title: 'Hello'" ++ [13; 10]%N ++ js "---")
         frontmatter_re
  = None.
Proof. vm_compute. reflexivity. Qed.

(** ** Strings *)

Lemma eqb_eq (a b : jsstring) : eqb a b = true <-> a = b.
Proof.
  revert b; induction a as [|x a IH]; intros [|y b]; simpl; split;
    try congruence; try reflexivity.
  - intros H. apply andb_true_iff in H as [Hx Hab].
    apply N.eqb_eq in Hx. apply IH in Hab. congruence.
  - intros H. injection H as -> ->. rewrite N.eqb_refl. simpl. now apply IH.
Qed.

Lemma eqb_refl (a : jsstring) : eqb a a = true.
Proof. now apply eqb_eq. Qed.

Lemma eqb_neq (a b : jsstring) : eqb a b = false <-> a <> b.
Proof.
  split.
  - intros H E. apply eqb_eq in E. congruence.
  - intros H. destruct (eqb a b) eqn:E; [|reflexivity].
    apply eqb_eq in E. contradiction.
Qed.

Lemma eqb_sym (a b : jsstring) : eqb a b = eqb b a.
Proof.
  destruct (eqb a b) eqn:E.
  - apply eqb_eq in E. subst. symmetry. apply eqb_refl.
  - symmetry. apply eqb_neq. apply eqb_neq in E. congruence.
Qed.


Lemma endsWith_split (s p : jsstring) :
  endsWith s p = true -> exists stem, s = stem ++ p.
Proof.
  unfold endsWith. intros H. apply andb_true_iff in H as [_ H].
  apply eqb_eq in H. exists (firstn (length s - length p) s).
  transitivity (firstn (length s - length p) s ++ skipn (length s - length p) s).
  - symmetry. apply firstn_skipn.
  - f_equal. exact H.
Qed.

(** Removing a pattern found at the end of the stem leaves the stem and
    what follows the pattern. *)
Lemma replace_at (stem p rest : jsstring) :
  indexOf (stem ++ p ++ rest) p = Some (length stem) ->
  replace (stem ++ p ++ rest) p [] = stem ++ rest.
Proof.
  intros H. unfold replace. rewrite H. simpl.
  rewrite firstn_app, firstn_all, Nat.sub_diag. simpl. rewrite app_nil_r.
  f_equal. rewrite skipn_app.
  rewrite skipn_all2 by lia. simpl.
  replace (length stem + length p - length stem) with (length p + 0) by lia.
  rewrite skipn_app, Nat.add_0_r, skipn_all. simpl.
  now replace (length p - length p) with 0 by lia.
Qed.



(** ** The header pattern *)

Section RunFacts.
Variable R : Type.

(** A literal prefix of a pattern matches exactly when the input starts
    with it. *)
Lemma run_lits (p : jsstring) (r : list node) (k : nat -> jsstring -> option R)
      (pos : nat) (s : jsstring) :
  run (map lit p ++ r) k pos s
  = if startsWith s p then run r k (pos + length p) (skipn (length p) s) else None.
Proof.
  revert pos s. induction p as [|c p IH]; intros pos s; simpl.
  - now rewrite Nat.add_0_r.
  - destruct s as [|x s]; [reflexivity|].
    destruct (c =? x)%N; [|reflexivity]. simpl. rewrite IH.
    now replace (S pos + length p) with (pos + S (length p)) by lia.
Qed.

Lemma is_any_true (c : char) : is_any c = true.
Proof. unfold is_any. apply orb_negb_r. Qed.

(** A lazy [[\s\S]*?] before a literal stops at the first occurrence of
    the literal. *)
Lemma star_lazy_any (pat : jsstring) (f : nat -> R) (pos : nat) (s : jsstring) :
  star_lazy is_any (fun p' s' => if startsWith s' pat then Some (f p') else None) pos s
  = option_map (fun i => f (pos + i)) (indexOf s pat).
Proof.
  revert pos. induction s as [|c s IH]; intros pos.
  - simpl. destruct (startsWith [] pat); simpl; [now rewrite Nat.add_0_r|reflexivity].
  - cbn [star_lazy indexOf]. destruct (startsWith (c :: s) pat).
    + simpl. now rewrite Nat.add_0_r.
    + rewrite is_any_true, IH. destruct (indexOf s pat); simpl; [|reflexivity].
      do 2 f_equal. lia.
Qed.
End RunFacts.

Lemma run_bol (R : Type) (r : list node) (k : nat -> jsstring -> option R)
      (s : jsstring) :
  run (Bol :: r) k 0 s = run r k 0 s.
Proof. reflexivity. Qed.

Lemma star_lazy_ext (R : Type) (p : char -> bool)
      (k k' : nat -> jsstring -> option R) (pos : nat) (s : jsstring) :
  (forall pos s, k pos s = k' pos s) ->
  star_lazy p k pos s = star_lazy p k' pos s.
Proof.
  intros H. revert pos. induction s as [|c s IH]; intros pos; simpl; rewrite H.
  - reflexivity.
  - destruct (k' pos (c :: s)); [reflexivity|]. destruct (p c); auto.
Qed.

(** A pattern [^a([\s\S]*?)b] with literal [a] and [b], tried at the start
    of the input. *)
Lemma match_at_block (a b s : jsstring) :
  match_at {| pre := Bol :: map lit a; group := [Star false is_any];
              Regex.post := map lit b |} 0 s
  = if startsWith s a
    then option_map (fun i => {| m0 := firstn (length a + i + length b - 0) s;
                                 m1 := firstn (length a + i - length a)
                                              (skipn (length a) s) |})
                    (indexOf (skipn (length a) s) b)
    else None.
Proof.
  unfold match_at. cbn [pre group Regex.post].
  rewrite run_bol, <- (app_nil_r (map lit a)), run_lits.
  destruct (startsWith s a); [|reflexivity].
  cbn [run Nat.add].
  rewrite star_lazy_ext
    with (k' := fun p2 s2 =>
                  if startsWith s2 b
                  then Some {| m0 := firstn (p2 + length b - 0) s;
                               m1 := firstn (p2 - length a) (skipn (length a) s) |}
                  else None).
  - apply (star_lazy_any b
             (fun p2 => {| m0 := firstn (p2 + length b - 0) s;
                           m1 := firstn (p2 - length a) (skipn (length a) s) |})).
  - intros p2 s2. rewrite <- (app_nil_r (map lit b)). now rewrite run_lits.
Qed.

Lemma search_frontmatter_later (s : jsstring) (pos : nat) :
  search frontmatter_re (S pos) s = None.
Proof. revert pos. induction s as [|c s IH]; intros pos; simpl; auto. Qed.

(** The header pattern finds the header block. *)
Lemma frontmatter_header_block (content : jsstring) :
  option_map m1 (match_ content frontmatter_re) = header_block content.
Proof.
  unfold match_, header_block.
  assert (E : search frontmatter_re 0 content = match_at frontmatter_re 0 content).
  { destruct content as [|c s]; cbn [search].
    - now destruct (match_at frontmatter_re 0 []).
    - rewrite search_frontmatter_later.
      now destruct (match_at frontmatter_re 0 (c :: s)). }
  rewrite E.
  change frontmatter_re
    with {| pre := Bol :: map lit (js "---" ++ newline);
            group := [Star false is_any];
            Regex.post := map lit (newline ++ js "---") |}.
  rewrite match_at_block.
  destruct (startsWith content (js "---" ++ newline)); [|reflexivity].
  change (length (js "---" ++ newline)) with 4.
  destruct (indexOf (skipn 4 content) (newline ++ js "---")); simpl; [|reflexivity].
  now replace (n - 0) with n by lia.
Qed.

(** ** [Array.prototype.sort] *)

Section SortFacts.
Variable A : Type.
Variable comparefn : A -> A -> number.

Local Abbreviation cmp := (Array.SortCompare comparefn).
Local Abbreviation sort := (Array.sort comparefn).
Local Abbreviation insert := (Array.insert comparefn).

Lemma insert_Permutation (x : A) (l : list A) : Permutation (insert x l) (x :: l).
Proof.
  induction l as [|y l IH]; simpl; [reflexivity|].
  destruct (cmp x y <=? 0)%Z; [reflexivity|].
  rewrite IH. apply perm_swap.
Qed.

Lemma sort_Permutation (l : list A) : Permutation (sort l) l.
Proof.
  induction l as [|x l IH]; simpl; [reflexivity|].
  rewrite insert_Permutation. now constructor.
Qed.

(** Stability: elements that may stay before one another keep their
    input order. *)
Lemma insert_filter (P : A -> bool) (x : A) (l : list A) :
  (P x = true -> forall y, In y l -> P y = true -> before comparefn x y) ->
  filter P (insert x l) = filter P (x :: l).
Proof.
  induction l as [|y l IH]; intros H; [reflexivity|].
  simpl. destruct (cmp x y <=? 0)%Z eqn:E; [reflexivity|].
  simpl. rewrite IH by (intros Hx z Hz; apply H; [assumption|now right]).
  simpl. destruct (P x) eqn:Px; [|reflexivity].
  destruct (P y) eqn:Py; [|reflexivity].
  exfalso. apply Z.leb_gt in E.
  specialize (H eq_refl y (or_introl eq_refl) Py). unfold before in H. lia.
Qed.

Lemma sort_stable (P : A -> bool) (l : list A) :
  (forall x y, In x l -> In y l -> P x = true -> P y = true -> before comparefn x y) ->
  filter P (sort l) = filter P l.
Proof.
  induction l as [|x l IH]; intros H; [reflexivity|].
  simpl sort. rewrite insert_filter.
  - simpl. rewrite IH; [reflexivity|].
    intros a b Ha Hb. apply H; now right.
  - intros Px y Hy Py. apply H; try assumption; [now left|].
    right. eapply Permutation_in; [apply sort_Permutation|exact Hy].
Qed.

(** Sortedness, for a comparator that is consistent on the elements. *)
Variable ok : A -> Prop.
Hypothesis total : forall x y, ok x -> ok y -> (cmp x y > 0)%Z -> before comparefn y x.
Hypothesis trans : forall x y z, ok x -> ok y -> ok z ->
  before comparefn x y -> before comparefn y z -> before comparefn x z.

Lemma insert_sorted (x : A) (l : list A) :
  ok x -> Forall ok l ->
  StronglySorted (before comparefn) l -> StronglySorted (before comparefn) (insert x l).
Proof.
  intros Hx Hl Hs. induction Hs as [|y l Hs IH Hy]; simpl.
  - repeat constructor.
  - inversion Hl as [|? ? Hoky Hokl]; subst.
    destruct (cmp x y <=? 0)%Z eqn:E.
    + apply Z.leb_le in E. constructor; [now constructor|].
      constructor; [exact E|].
      rewrite Forall_forall in *. intros z Hz.
      apply (trans Hx Hoky (Hokl z Hz) E (Hy z Hz)).
    + apply Z.leb_gt in E. constructor; [now apply IH|].
      rewrite Forall_forall in *. intros z Hz.
      apply (Permutation_in _ (insert_Permutation x l)) in Hz.
      destruct Hz as [<-|Hz]; [|now apply Hy].
      apply total; [assumption|assumption|lia].
Qed.

Lemma sort_sorted (l : list A) :
  Forall ok l -> StronglySorted (before comparefn) (sort l).
Proof.
  induction l as [|x l IH]; intros H; simpl; [constructor|].
  inversion H; subst. apply insert_sorted; auto.
  eapply Permutation_Forall; [symmetry; apply sort_Permutation|assumption].
Qed.

(** A sorted input is left as it is. *)
Lemma sort_id (l : list A) :
  StronglySorted (before comparefn) l -> sort l = l.
Proof.
  induction 1 as [|x l Hs IH Hx]; [reflexivity|].
  simpl. rewrite IH. destruct l as [|y l]; [reflexivity|].
  simpl. inversion Hx; subst. unfold before in *.
  now destruct (Z.leb_spec (cmp x y) 0); [|lia].
Qed.

Lemma before_refl (x : A) : ok x -> before comparefn x x.
Proof.
  intros Hx. destruct (Z.leb_spec (cmp x x) 0) as [H|H]; [exact H|].
  apply total; [assumption|assumption|lia].
Qed.

(** The model is the sort of the language: for a consistent comparator a
    sorted, stable permutation of the input is unique, so every
    conforming [sort] returns the list computed here. *)
Lemma stable_sorted_unique (l1 l2 : list A) :
  Forall ok l1 ->
  StronglySorted (before comparefn) l1 -> StronglySorted (before comparefn) l2 ->
  Permutation l1 l2 ->
  (forall x, ok x -> filter (equivb comparefn x) l1 = filter (equivb comparefn x) l2) ->
  l1 = l2.
Proof.
  revert l2. induction l1 as [|a t1 IH]; intros l2 Hok S1 S2 P F.
  - apply Permutation_nil in P. now subst.
  - destruct l2 as [|b t2].
    { symmetry in P. now apply Permutation_nil in P. }
    inversion Hok as [|? ? Ha Ht]; subst.
    inversion S1 as [|? ? S1' A1]; subst. inversion S2 as [|? ? S2' A2]; subst.
    assert (Hb : ok b).
    { rewrite Forall_forall in Hok. apply Hok.
      eapply Permutation_in; [symmetry; exact P|now left]. }
    assert (Hab : before comparefn a b).
    { assert (In b (a :: t1)) as [<-|Hin]
        by (eapply Permutation_in; [symmetry; exact P|now left]).
      - now apply before_refl.
      - rewrite Forall_forall in A1. now apply A1. }
    assert (Hba : before comparefn b a).
    { assert (In a (b :: t2)) as [<-|Hin]
        by (eapply Permutation_in; [exact P|now left]).
      - now apply before_refl.
      - rewrite Forall_forall in A2. now apply A2. }
    assert (a = b) as <-.
    { pose proof (F a Ha) as Fa. simpl in Fa.
      pose proof (before_refl Ha) as Haa.
      assert (Eaa : equivb comparefn a a = true)
        by (unfold equivb; apply andb_true_iff; split; now apply Z.leb_le).
      assert (Eab : equivb comparefn a b = true)
        by (unfold equivb; apply andb_true_iff; split; now apply Z.leb_le).
      rewrite Eaa, Eab in Fa. congruence. }
    f_equal. apply IH; try assumption.
    + now apply Permutation_cons_inv in P.
    + intros x Hx. specialize (F x Hx). simpl in F.
      destruct (equivb comparefn x a); congruence.
Qed.

Lemma sort_unique (l l' : list A) :
  Forall ok l ->
  Permutation l' l -> StronglySorted (before comparefn) l' ->
  (forall x, ok x -> filter (equivb comparefn x) l' = filter (equivb comparefn x) l) ->
  l' = sort l.
Proof.
  intros Hok P S F.
  assert (Hok' : Forall ok l')
    by (eapply Permutation_Forall; [symmetry; exact P|exact Hok]).
  apply stable_sorted_unique; try assumption.
  - now apply sort_sorted.
  - rewrite P. symmetry. apply sort_Permutation.
  - intros x Hx. rewrite F by assumption. symmetry. apply sort_stable.
    intros a b Ha Hb Ea Eb. rewrite Forall_forall in Hok.
    unfold equivb in Ea, Eb.
    apply andb_true_iff in Ea as [_ Ea]. apply andb_true_iff in Eb as [Eb _].
    apply Z.leb_le in Ea, Eb.
    apply (trans (Hok a Ha) Hx (Hok b Hb)); assumption.
Qed.
End SortFacts.

(** ** The grouping object *)

Lemma own_set (o : Obj.t) (k k' : jsstring) (v : list cve) :
  Obj.own (Obj.set o k v) k' = if eqb k' k then Some v else Obj.own o k'.
Proof.
  induction o as [|[k1 v1] o IH]; simpl; [reflexivity|].
  destruct (eqb k k1) eqn:E; simpl.
  - apply eqb_eq in E. subst k1. simpl. now destruct (eqb k' k).
  - rewrite IH. destruct (eqb k' k1) eqn:E1; [|reflexivity].
    apply eqb_eq in E1. subst k1. now rewrite eqb_sym, E.
Qed.

Lemma own_In (o : Obj.t) (k : jsstring) :
  In k (map fst o) <-> Obj.own o k <> None.
Proof.
  induction o as [|[k1 v1] o IH]; simpl; [tauto|].
  destruct (eqb k k1) eqn:E.
  - apply eqb_eq in E. subst. split; [congruence|auto].
  - apply eqb_neq in E. rewrite <- IH. split; [intros [?|?]|]; auto; congruence.
Qed.

Lemma keys_set (o : Obj.t) (k : jsstring) (v : list cve) :
  map fst (Obj.set o k v)
  = match Obj.own o k with
    | Some _ => map fst o
    | None => map fst o ++ [k]
    end.
Proof.
  induction o as [|[k1 v1] o IH]; simpl; [reflexivity|].
  destruct (eqb k k1) eqn:E; simpl; [reflexivity|].
  rewrite IH. now destruct (Obj.own o k).
Qed.

Lemma set_NoDup (o : Obj.t) (k : jsstring) (v : list cve) :
  NoDup (map fst o) -> NoDup (map fst (Obj.set o k v)).
Proof.
  intros H. rewrite keys_set. destruct (Obj.own o k) eqn:E; [exact H|].
  apply NoDup_app; [exact H|repeat constructor; simpl; tauto|].
  intros x Hx [<-|[]]. apply own_In in Hx. contradiction.
Qed.

Lemma grouped_nil : grouped [] [].
Proof. split; [constructor|reflexivity]. Qed.

Lemma group_step_ok (seen : list cve) (o : Obj.t) (c : cve) :
  grouped seen o -> inherited_name (cve_date c) = false ->
  exists o', group_step o c = Normal o' /\ grouped (seen ++ [c]) o'.
Proof.
  intros [Hnd Hown] Hc. unfold group_step, Obj.get.
  fold (inherited_name (cve_date c)). rewrite Hc.
  assert (Hspec : forall l o1, NoDup (map fst o1) ->
            (forall k, Obj.own o1 k = if eqb k (cve_date c) then Some l else Obj.own o k) ->
            l = of_year (cve_date c) seen ->
            grouped (seen ++ [c]) (Obj.set o1 (cve_date c) (l ++ [c]))).
  { intros l o1 Hnd1 Hown1 Hl. split; [now apply set_NoDup|].
    intros k. rewrite own_set. unfold of_year.
    rewrite existsb_app, filter_app. simpl. rewrite orb_false_r.
    rewrite (eqb_sym k). destruct (eqb (cve_date c) k) eqn:E.
    - apply eqb_eq in E. subst k. rewrite orb_true_r. now subst l.
    - rewrite orb_false_r, app_nil_r, Hown1, eqb_sym, E. apply Hown. }
  destruct (Obj.own o (cve_date c)) as [l|] eqn:E; simpl.
  - rewrite E. eexists; split; [reflexivity|].
    apply Hspec; [assumption| |].
    + intros k. destruct (eqb k (cve_date c)) eqn:Ek; [|reflexivity].
      apply eqb_eq in Ek. now subst.
    + rewrite Hown in E. destruct (existsb _ seen); congruence.
  - rewrite own_set, eqb_refl. eexists; split; [reflexivity|].
    apply Hspec; [now apply set_NoDup|intros k; apply own_set|].
    rewrite Hown in E. unfold of_year.
    destruct (existsb _ seen) eqn:Ex; [discriminate|].
    symmetry. clear - Ex. induction seen as [|x seen IH]; [reflexivity|].
    simpl in *. apply orb_false_iff in Ex as [-> Ex]. auto.
Qed.

Lemma group_step_throws (seen : list cve) (o : Obj.t) (c : cve) :
  grouped seen o -> Forall (fun x => inherited_name (cve_date x) = false) seen ->
  inherited_name (cve_date c) = true ->
  group_step o c = Throw TypeError.
Proof.
  intros [_ Hown] Hseen Hc. unfold group_step, Obj.get.
  fold (inherited_name (cve_date c)). rewrite Hc.
  assert (E : Obj.own o (cve_date c) = None).
  { rewrite Hown. destruct (existsb _ seen) eqn:Ex; [|reflexivity].
    apply existsb_exists in Ex as (x & Hx & Ex). apply eqb_eq in Ex.
    rewrite Forall_forall in Hseen. specialize (Hseen x Hx). congruence. }
  rewrite E. simpl. rewrite E. reflexivity.
Qed.

Lemma reduce_ok (l seen : list cve) (o : Obj.t) :
  grouped seen o ->
  Forall (fun c => inherited_name (cve_date c) = false) l ->
  exists o', reduce group_step l o = Normal o' /\ grouped (seen ++ l) o'.
Proof.
  revert seen o. induction l as [|c l IH]; intros seen o Hg Hl; simpl.
  - exists o. now rewrite app_nil_r.
  - inversion Hl; subst.
    destruct (group_step_ok c Hg) as (o1 & -> & Hg1); [assumption|]. simpl.
    destruct (IH _ _ Hg1) as (o' & Ho' & Hg'); [assumption|].
    exists o'. now rewrite <- app_assoc in Hg'.
Qed.

Lemma reduce_throws (l seen : list cve) (o : Obj.t) :
  grouped seen o ->
  Forall (fun c => inherited_name (cve_date c) = false) seen ->
  Exists (fun c => inherited_name (cve_date c) = true) l ->
  reduce group_step l o = Throw TypeError.
Proof.
  revert seen o. induction l as [|c l IH]; intros seen o Hg Hs Hl; simpl.
  - inversion Hl.
  - destruct (inherited_name (cve_date c)) eqn:Hc.
    + now rewrite (group_step_throws c Hg Hs Hc).
    + destruct (group_step_ok c Hg Hc) as (o1 & -> & Hg1). simpl.
      apply (IH _ _ Hg1).
      * apply Forall_app. split; [assumption|]. now repeat constructor.
      * inversion Hl; subst; [congruence|assumption].
Qed.

(** The grouping throws exactly when a year names an inherited property. *)
Lemma cvesByYear_ok (cves : list cve) :
  Forall (fun c => inherited_name (cve_date c) = false) cves ->
  exists o, cvesByYear cves = Normal o /\ grouped cves o.
Proof. intros H. apply (reduce_ok grouped_nil H). Qed.

Lemma cvesByYear_throws (cves : list cve) :
  Exists (fun c => inherited_name (cve_date c) = true) cves ->
  cvesByYear cves = Throw TypeError.
Proof. intros H. apply (reduce_throws grouped_nil (Forall_nil _) H). Qed.

Lemma cvesByYear_grouped (cves : list cve) (o : Obj.t) :
  cvesByYear cves = Normal o -> grouped cves o.
Proof.
  intros H.
  destruct (Forall_Exists_dec (fun c => inherited_name (cve_date c) = false)
              (fun c => bool_dec _ false) cves) as [F|E].
  - destruct (cvesByYear_ok F) as (o' & Ho' & Hg). congruence.
  - rewrite cvesByYear_throws in H; [discriminate|].
    eapply Exists_impl; [|exact E]. intros c Hc. simpl in Hc.
    now destruct (inherited_name (cve_date c)).
Qed.

Lemma filter_negb_Permutation (A : Type) (f : A -> bool) (l : list A) :
  Permutation (filter f l ++ filter (fun x => negb (f x)) l) l.
Proof.
  induction l as [|x l IH]; simpl; [reflexivity|].
  destruct (f x); simpl.
  - now constructor.
  - symmetry. apply Permutation_cons_app. now symmetry.
Qed.

Lemma keys_Permutation (o : Obj.t) : Permutation (Obj.keys o) (map fst o).
Proof.
  unfold Obj.keys. rewrite sort_Permutation. apply filter_negb_Permutation.
Qed.

Lemma years_Permutation (localeCompare : jsstring -> jsstring -> Z) (o : Obj.t) :
  Permutation (years localeCompare o) (map fst o).
Proof. unfold years. rewrite sort_Permutation. apply keys_Permutation. Qed.

Lemma grouped_keys (cves : list cve) (o : Obj.t) (k : jsstring) :
  grouped cves o ->
  (In k (map fst o) <-> exists c, In c cves /\ cve_date c = k).
Proof.
  intros [_ Hown]. rewrite own_In, Hown.
  destruct (existsb _ cves) eqn:E.
  - apply existsb_exists in E as (c & Hc & E). apply eqb_eq in E.
    split; [eauto|congruence].
  - split; [congruence|]. intros (c & Hc & Ec).
    assert (existsb (fun c => eqb (cve_date c) k) cves = true); [|congruence].
    apply existsb_exists. exists c. split; [assumption|now apply eqb_eq].
Qed.

Lemma grouped_group_of (cves : list cve) (o : Obj.t) (k : jsstring) :
  grouped cves o -> In k (map fst o) -> group_of o k = of_year k cves.
Proof.
  intros Hg Hk. pose proof Hg as [_ Hown].
  apply own_In in Hk. unfold group_of, Obj.get.
  rewrite Hown in *. now destruct (existsb _ cves).
Qed.

Lemma flat_map_ext_In (A B : Type) (f g : A -> list B) (l : list A) :
  (forall x, In x l -> f x = g x) -> flat_map f l = flat_map g l.
Proof.
  induction l as [|x l IH]; intros H; simpl; [reflexivity|].
  rewrite H by now left. f_equal. apply IH. intros; apply H; now right.
Qed.

Lemma of_year_head (c : cve) (l : list cve) (k : jsstring) :
  of_year k (c :: l) = if eqb (cve_date c) k then c :: of_year k l else of_year k l.
Proof. reflexivity. Qed.

Lemma of_year_cons_other (c : cve) (l : list cve) (ks : list jsstring) :
  ~ In (cve_date c) ks ->
  flat_map (fun k => of_year k (c :: l)) ks = flat_map (fun k => of_year k l) ks.
Proof.
  intros H. apply flat_map_ext_In. intros k Hk. unfold of_year. simpl.
  destruct (eqb (cve_date c) k) eqn:E; [|reflexivity].
  apply eqb_eq in E. congruence.
Qed.

Lemma of_year_cons (c : cve) (l : list cve) (ks : list jsstring) :
  NoDup ks -> In (cve_date c) ks ->
  Permutation (flat_map (fun k => of_year k (c :: l)) ks)
              (c :: flat_map (fun k => of_year k l) ks).
Proof.
  induction 1 as [|k ks Hk Hnd IH]; intros Hin; [destruct Hin|].
  cbn [flat_map]. rewrite of_year_head.
  destruct (eqb (cve_date c) k) eqn:E.
  - apply eqb_eq in E. subst k. rewrite of_year_cons_other by assumption.
    reflexivity.
  - apply eqb_neq in E. destruct Hin as [Hin|Hin]; [congruence|].
    rewrite (IH Hin). symmetry. apply Permutation_middle.
Qed.

(** The groups of a duplicate-free list of years that covers the input
    partition the input. *)
Lemma of_year_partition (l : list cve) (ks : list jsstring) :
  NoDup ks -> (forall c, In c l -> In (cve_date c) ks) ->
  Permutation (flat_map (fun k => of_year k l) ks) l.
Proof.
  intros Hnd. induction l as [|c l IH]; intros Hin.
  - clear. induction ks as [|k ks IHk]; [reflexivity|exact IHk].
  - rewrite of_year_cons; [|assumption|apply Hin; now left].
    constructor. apply IH. intros; apply Hin; now right.
Qed.

(** When the grouping returns, the advisories listed under the year
    headings are the input advisories, each once. *)
Lemma groups_partition (localeCompare : jsstring -> jsstring -> Z)
      (cves : list cve) (o : Obj.t) :
  cvesByYear cves = Normal o ->
  Permutation (flat_map (group_of o) (years localeCompare o)) cves.
Proof.
  intros H. apply cvesByYear_grouped in H.
  pose proof (years_Permutation localeCompare o) as P.
  rewrite (flat_map_ext_In (group_of o) (fun k => of_year k cves)).
  - apply of_year_partition.
    + apply (Permutation_NoDup (Permutation_sym P)). apply H.
    + intros c Hc. apply (Permutation_in _ (Permutation_sym P)).
      apply (grouped_keys _ H). eauto.
  - intros k Hk. apply grouped_group_of; [assumption|].
    now apply (Permutation_in _ P).
Qed.

Lemma years_descending (localeCompare : jsstring -> jsstring -> Z) (o : Obj.t)
      (ks : list jsstring) :
  collation localeCompare ks ->
  (forall k, In k (map fst o) -> In k ks) ->
  StronglySorted (fun a b => (localeCompare b a <= 0)%Z) (years localeCompare o).
Proof.
  intros [Htot Htrans] Hks. unfold years.
  apply (@sort_sorted _ (by_locale localeCompare) (fun k => In k ks)).
  - intros x y Hx Hy H. unfold before, Array.SortCompare, by_locale in *.
    apply (Htot y x Hy Hx) in H. lia.
  - intros x y z Hx Hy Hz Hxy Hyz. unfold before, Array.SortCompare, by_locale in *.
    apply (Htrans z y x); assumption.
  - apply Forall_forall. intros k Hk. apply Hks.
    now apply (Permutation_in _ (keys_Permutation o)).
Qed.

(** The years of the groups are year fields of the input. *)
Lemma grouped_year_fields (cves : list cve) (o : Obj.t) (k : jsstring) :
  grouped cves o -> In k (map fst o) -> In k (year_fields cves).
Proof.
  intros Hg Hk. apply (grouped_keys _ Hg) in Hk as (c & Hc & <-).
  unfold year_fields. now apply in_map.
Qed.

Lemma year_block_eq (o : Obj.t) (year : jsstring) :
  year_block o year
  = year_heading year ++ concat (map cve_line (group_of o year)) ++ year_closing.
Proof. unfold year_block, year_heading, year_closing. now rewrite <- !app_assoc. Qed.

(** The code-unit order is an order of the strings, and so is the
    collation of the instance. *)
Lemma codeUnitCompare_antisym (a b : jsstring) :
  codeUnitCompare b a = (- codeUnitCompare a b)%Z.
Proof.
  revert b. induction a as [|x a IH]; intros [|y b]; simpl; try reflexivity.
  rewrite (N.compare_antisym x y). destruct (x ?= y)%N; simpl; auto.
Qed.

Lemma codeUnitCompare_trans (a b c : jsstring) :
  (codeUnitCompare a b <= 0)%Z -> (codeUnitCompare b c <= 0)%Z ->
  (codeUnitCompare a c <= 0)%Z.
Proof.
  revert b c. induction a as [|x a IH]; intros [|y b] [|z c]; simpl; try lia.
  destruct (N.compare_spec x y), (N.compare_spec y z), (N.compare_spec x z);
    subst; try lia; intros; eauto.
Qed.

Lemma codeUnitCompare_eq (a b : jsstring) :
  codeUnitCompare a b = 0%Z -> a = b.
Proof.
  revert b. induction a as [|x a IH]; intros [|y b]; simpl; try discriminate;
    [reflexivity|].
  destruct (N.compare_spec x y); try discriminate. subst. intros H. f_equal. auto.
Qed.

Lemma localeCompare_antisym (a b : jsstring) :
  Instance.localeCompare b a = (- Instance.localeCompare a b)%Z.
Proof.
  unfold Instance.localeCompare.
  rewrite (codeUnitCompare_antisym (map Instance.primary a) (map Instance.primary b)).
  rewrite (codeUnitCompare_antisym (map Instance.tertiary a) (map Instance.tertiary b)).
  now destruct (codeUnitCompare (map Instance.primary a) (map Instance.primary b)).
Qed.

Lemma localeCompare_trans (a b c : jsstring) :
  (Instance.localeCompare a b <= 0)%Z -> (Instance.localeCompare b c <= 0)%Z ->
  (Instance.localeCompare a c <= 0)%Z.
Proof.
  unfold Instance.localeCompare.
  pose proof (@codeUnitCompare_trans (map Instance.primary a) (map Instance.primary b)
                (map Instance.primary c)) as Hp.
  pose proof (@codeUnitCompare_trans (map Instance.tertiary a) (map Instance.tertiary b)
                (map Instance.tertiary c)) as Ht.
  pose proof (@codeUnitCompare_eq (map Instance.primary a) (map Instance.primary c)) as He.
  pose proof (codeUnitCompare_antisym (map Instance.primary b) (map Instance.primary a)) as Ha.
  destruct (codeUnitCompare (map Instance.primary a) (map Instance.primary c)) eqn:Eac.
  - rewrite <- (He eq_refl) in *. rewrite Ha.
    destruct (codeUnitCompare (map Instance.primary b) (map Instance.primary a));
      simpl; lia.
  - destruct (codeUnitCompare (map Instance.primary a) (map Instance.primary b));
      destruct (codeUnitCompare (map Instance.primary b) (map Instance.primary c));
      intros; lia.
  - intros; lia.
Qed.

Lemma instance_collation (ks : list jsstring) : collation Instance.localeCompare ks.
Proof.
  split.
  - intros a b _ _. rewrite (localeCompare_antisym a b). lia.
  - intros a b c _ _ _. apply localeCompare_trans.
Qed.

(** ** The run *)

Section Runs.
Variable Date_parse : jsstring -> number.
Variable localeCompare : jsstring -> jsstring -> Z.
Variables readme_head readme_mid readme_tail : jsstring.

Local Abbreviation main' := (main Date_parse localeCompare readme_head readme_mid readme_tail).

Lemma main_writes (w : world) (cves : list cve) (o : Obj.t) :
  cves_json w = parsed cves -> cvesByYear cves = Normal o ->
  main' w
  = Normal {| os := os w; cves_json := cves_json w; blog := blog w;
              output := Some (readme localeCompare readme_head readme_mid readme_tail
                                (blogPosts Date_parse (findMarkdownFiles (os w) [] (blog w)))
                                o) |}.
Proof. intros Hc Ho. unfold main, load_cves. rewrite Hc. simpl. now rewrite Ho. Qed.

(** With a content tree that can be read and an output directory that
    exists, as the worlds have them, the exceptions of a run are those of
    the load and of the grouping. *)
Lemma main_throws_iff (w : world) (e : error) :
  main' w = Throw e <-> (cves <- load_cves w ;; cvesByYear cves) = Throw e.
Proof.
  unfold main. destruct (load_cves w) as [cves|e']; simpl;
    [|split; congruence].
  destruct (cvesByYear cves); simpl; split; congruence.
Qed.
End Runs.

(** ** Discovered files *)

Lemma relative_last (pf : platform) (dir : list jsstring) (name : jsstring) :
  exists pre, relative pf (dir ++ [name]) = pre ++ name.
Proof.
  induction dir as [|d dir [pre IH]]; [now exists []|].
  change ((d :: dir) ++ [name]) with (d :: (dir ++ [name])).
  destruct (dir ++ [name]) as [|x rest] eqn:E.
  - now destruct dir.
  - exists (d ++ sep pf ++ pre).
    change (relative pf (d :: x :: rest))
      with (d ++ sep pf ++ relative pf (x :: rest)).
    rewrite IH. now rewrite <- !app_assoc.
Qed.

(** Every discovered file has a relative path that ends in [.md]. *)
Lemma find_entry_md (pf : platform) (e : entry) :
  forall dir f, In f (find_entry pf dir e) ->
  exists stem, relativePath f = stem ++ js ".md".
Proof.
  induction e as [name text|name entries IH] using entry_induction; intros dir f Hf.
  - simpl in Hf. destruct (endsWith name (js ".md")) eqn:E; [|destruct Hf].
    destruct Hf as [<-|[]]. simpl.
    destruct (relative_last pf dir name) as [pre ->].
    apply endsWith_split in E as [stem ->].
    exists (pre ++ stem). now rewrite app_assoc.
  - simpl in Hf. apply in_flat_map in Hf as (e' & He' & Hf).
    rewrite Forall_forall in IH. eapply IH; eassumption.
Qed.

Lemma findMarkdownFiles_md (pf : platform) (dir : list jsstring)
      (entries : list entry) (f : mdfile) :
  In f (findMarkdownFiles pf dir entries) ->
  exists stem, relativePath f = stem ++ js ".md".
Proof.
  unfold findMarkdownFiles. intros H.
  apply in_flat_map in H as (e & _ & H). eapply find_entry_md; eassumption.
Qed.

(** ** Post records *)

Lemma filter_Boolean_app (A : Type) (l1 l2 : list (option A)) :
  Array.filter_Boolean (l1 ++ l2) = Array.filter_Boolean l1 ++ Array.filter_Boolean l2.
Proof.
  induction l1 as [|[x|] l1 IH]; simpl; [reflexivity| |assumption].
  now rewrite IH.
Qed.

Lemma In_filter_Boolean (A : Type) (l : list (option A)) (x : A) :
  In x (Array.filter_Boolean l) <-> In (Some x) l.
Proof.
  induction l as [|[y|] l IH]; simpl; [tauto| |].
  - rewrite IH. split; intros [H|H]; auto; left; congruence.
  - rewrite IH. split; [auto|]. intros [H|H]; [discriminate|assumption].
Qed.

Section Posts.
Variable Date_parse : jsstring -> number.

Local Abbreviation post_of' := (post_of Date_parse).
Local Abbreviation blogPosts' := (blogPosts Date_parse).

Lemma blogPosts_Permutation (files : list mdfile) :
  Permutation (blogPosts' files) (records Date_parse files).
Proof. apply sort_Permutation. Qed.

Lemma records_app (l1 l2 : list mdfile) :
  records Date_parse (l1 ++ l2) = records Date_parse l1 ++ records Date_parse l2.
Proof. unfold records. now rewrite map_app, filter_Boolean_app. Qed.

Lemma In_records (files : list mdfile) (p : post) :
  In p (records Date_parse files) <-> exists f, In f files /\ post_of' f = Some p.
Proof.
  unfold records. rewrite In_filter_Boolean, in_map_iff.
  split; intros (f & H1 & H2); eauto.
Qed.

Lemma post_of_None (f : mdfile) :
  post_of' f = None <-> match_ (content f) frontmatter_re = None.
Proof.
  unfold post_of. destruct (match_ (content f) frontmatter_re); split; congruence.
Qed.

Lemma post_of_Some (f : mdfile) (fm : match_array) :
  match_ (content f) frontmatter_re = Some fm ->
  post_of' f
  = Some {| title := group_or_empty (match_ (m1 fm) title_re);
            date := Date_parse (group_or_empty (match_ (m1 fm) date_re));
            slug := slug_of (relativePath f) |}.
Proof. intros H. unfold post_of. now rewrite H. Qed.

Lemma post_of_slug (f : mdfile) (p : post) :
  post_of' f = Some p -> slug p = slug_of (relativePath f).
Proof.
  unfold post_of. destruct (match_ (content f) frontmatter_re); [|discriminate].
  intros H. injection H as <-. reflexivity.
Qed.

(** A file without a header block leaves no trace in the post list. *)
Lemma records_skip (l1 l2 : list mdfile) (f : mdfile) :
  post_of' f = None -> records Date_parse (l1 ++ f :: l2) = records Date_parse (l1 ++ l2).
Proof.
  intros H. rewrite !records_app. f_equal.
  unfold records. simpl. now rewrite H.
Qed.

Lemma blogPosts_skip (l1 l2 : list mdfile) (f : mdfile) :
  post_of' f = None -> blogPosts' (l1 ++ f :: l2) = blogPosts' (l1 ++ l2).
Proof.
  intros H. unfold blogPosts. fold (records Date_parse (l1 ++ f :: l2)) (records Date_parse (l1 ++ l2)).
  now rewrite records_skip.
Qed.

(** The comparator of the posts orders the posts whose date is valid. *)
Lemma by_date_total (x y : post) :
  valid x -> valid y ->
  (Array.SortCompare by_date x y > 0)%Z -> before by_date y x.
Proof.
  unfold valid, before, Array.SortCompare, by_date.
  destruct (date x), (date y); simpl; try congruence. lia.
Qed.

Lemma by_date_trans (x y z : post) :
  valid x -> valid y -> valid z ->
  before by_date x y -> before by_date y z -> before by_date x z.
Proof.
  unfold valid, before, Array.SortCompare, by_date.
  destruct (date x), (date y), (date z); simpl; try congruence. lia.
Qed.
End Posts.

Lemma StronglySorted_impl (A : Type) (R S : A -> A -> Prop) (l : list A) :
  (forall x y, R x y -> S x y) -> StronglySorted R l -> StronglySorted S l.
Proof.
  intros H. induction 1 as [|x l Hs IH Hx]; constructor; [assumption|].
  eapply Forall_impl; [|exact Hx]. intros y. apply H.
Qed.

Lemma StronglySorted_impl_In (A : Type) (R S : A -> A -> Prop) (l : list A) :
  (forall x y, In x l -> In y l -> R x y -> S x y) ->
  StronglySorted R l -> StronglySorted S l.
Proof.
  intros H Hs. induction Hs as [|x l Hs IH Hx]; constructor.
  - apply IH. intros a b Ha Hb. apply H; now right.
  - rewrite Forall_forall in *. intros y Hy.
    apply H; [now left|now right|now apply Hx].
Qed.

Lemma StronglySorted_nth (A : Type) (R : A -> A -> Prop) (l : list A) :
  StronglySorted R l ->
  forall i j a b, i < j -> nth_error l i = Some a -> nth_error l j = Some b -> R a b.
Proof.
  induction 1 as [|x l Hs IH Hx]; intros i j a b Hij Ha Hb.
  - now destruct i.
  - destruct j as [|j]; [lia|]. simpl in Hb. destruct i as [|i].
    + injection Ha as <-. rewrite Forall_forall in Hx. apply Hx.
      eapply nth_error_In; eassumption.
    + simpl in Ha. apply (IH i j); [lia|assumption|assumption].
Qed.


Lemma post_line_eq (p : post) :
  post_line p
  = js "  * [" ++ title p ++ js "](https://jomar.fr/blog/" ++ slug p
    ++ js "/)" ++ newline.
Proof.
  unfold post_line, post_url, site_prefix. rewrite <- !app_assoc. reflexivity.
Qed.

(** The fragments the script builds are the items and blocks of the
    document. *)
Lemma post_list_items (posts : list post) :
  post_list posts = concat (map post_item posts).
Proof.
  unfold post_list. f_equal. apply map_ext. intros p. apply post_line_eq.
Qed.

Lemma cve_blocks_sections (localeCompare : jsstring -> jsstring -> Z)
      (cves : list cve) (o : Obj.t) :
  grouped cves o ->
  cve_blocks localeCompare o = concat (map (year_section cves) (years localeCompare o)).
Proof.
  intros Hg. unfold cve_blocks. f_equal. apply map_ext_in. intros year Hy.
  rewrite year_block_eq, (grouped_group_of _ Hg); [reflexivity|].
  now apply (Permutation_in _ (years_Permutation localeCompare o)).
Qed.

Section Written.
Variable Date_parse : jsstring -> number.
Variable localeCompare : jsstring -> jsstring -> Z.
Variables readme_head readme_mid readme_tail : jsstring.

(** What a run that completes has written. *)
Lemma main_Normal_inv (w w' : world) :
  main Date_parse localeCompare readme_head readme_mid readme_tail w = Normal w' ->
  exists cves o,
    cves_json w = parsed cves /\ cvesByYear cves = Normal o /\
    output w'
    = Some (document readme_head readme_mid readme_tail
              (blogPosts Date_parse (findMarkdownFiles (os w) [] (blog w)))
              cves (years localeCompare o)).
Proof.
  unfold main, load_cves. destruct (cves_json w) as [| |cves]; simpl; try discriminate.
  destruct (cvesByYear cves) as [o|e] eqn:Ho; simpl; [|discriminate].
  intros H. injection H as <-. exists cves, o. split; [reflexivity|].
  split; [exact Ho|]. cbn [output]. unfold readme, document.
  now rewrite post_list_items, (cve_blocks_sections _ (cvesByYear_grouped _ Ho)).
Qed.

Lemma main_writes_document (w : world) (cves : list cve) (o : Obj.t) :
  cves_json w = parsed cves -> cvesByYear cves = Normal o ->
  main Date_parse localeCompare readme_head readme_mid readme_tail w
  = Normal {| os := os w; cves_json := cves_json w; blog := blog w;
              output := Some (document readme_head readme_mid readme_tail
                                (blogPosts Date_parse (findMarkdownFiles (os w) [] (blog w)))
                                cves (years localeCompare o)) |}.
Proof.
  intros Hc Ho. rewrite (main_writes _ _ _ _ _ w Hc Ho). unfold readme, document.
  now rewrite post_list_items, (cve_blocks_sections _ (cvesByYear_grouped _ Ho)).
Qed.

(** The advisories decide alone whether a run ends by an exception: two
    sites with the same advisory file end alike. *)
Lemma main_throws_alike (w w2 : world) (e : error) :
  cves_json w2 = cves_json w ->
  main Date_parse localeCompare readme_head readme_mid readme_tail w = Throw e
  <-> main Date_parse localeCompare readme_head readme_mid readme_tail w2 = Throw e.
Proof.
  intros H. rewrite !main_throws_iff. unfold load_cves. now rewrite H.
Qed.
End Written.

(** * Properties of the output *)

Example sample_files :
  map relativePath (findMarkdownFiles posix [] sample_blog)
  = [js "wordpress.md"; js "2025/ethernaut_dex_two/index.md";
     js "2025/side_entrance/index.md"; js "2025/draft.md"; js "same-day.md"].
Proof. reflexivity. Qed.

Example sample_files_win32 :
  map (fun f => slug_of (relativePath f)) (findMarkdownFiles win32 [] sample_blog)
  = [js "wordpress"; js "2025/ethernaut_dex_two/index";
     js "2025/side_entrance/index"; js "2025/draft"; js "same-day"].
Proof. reflexivity. Qed.

Example sample_posts :
  map (fun p => (title p, slug p))
      (blogPosts Instance.Date_parse (findMarkdownFiles posix [] sample_blog))
  = [ (js "Investigating", js "wordpress");
      (js "Ethernaut - Dex Two", js "2025/ethernaut_dex_two/index");
      (js "Second of the day", js "same-day");
      (js "Side Entrance", js "2025/side_entrance/index") ].
Proof. vm_compute. reflexivity. Qed.

Example sample_output :
  match sample_main sample_world with
  | Normal w' => output w'
  | Throw _ => None
  end
  = Some (js "<head>"
          ++ unlines ["  * [Investigating](https://jomar.fr/blog/wordpress/)";
                      "  * [Ethernaut - Dex Two](https://jomar.fr/blog/2025/ethernaut_dex_two/index/)";
                      "  * [Second of the day](https://jomar.fr/blog/same-day/)";
                      "  * [Side Entrance](https://jomar.fr/blog/2025/side_entrance/index/)"]
          ++ js "<mid>"
          ++ unlines ["<details>"; "  <summary>2024</summary>"; "";
                      "  * [CVE-2024-1](https://example.org/CVE-2024-1) - XSS in [Target](https://example.org/CVE-2024-1)";
                      "</details>"; "";
                      "<details>"; "  <summary>2023</summary>"; "";
                      "  * [CVE-2023-1](https://example.org/CVE-2023-1) - XSS in [Target](https://example.org/CVE-2023-1)";
                      "  * [CVE-2023-2](https://example.org/CVE-2023-2) - XSS in [Target](https://example.org/CVE-2023-2)";
                      "</details>"; "";
                      "<details>"; "  <summary>2022</summary>"; "";
                      "  * [CVE-2022-1](https://example.org/CVE-2022-1) - XSS in [Target](https://example.org/CVE-2022-1)";
                      "</details>"; ""]
          ++ js "<tail>").
Proof. vm_compute. reflexivity. Qed.

Example sample_years :
  exists o, cvesByYear sample_cves = Normal o
            /\ Obj.keys o = [js "2022"; js "2023"; js "2024"]
            /\ years Instance.localeCompare o = [js "2024"; js "2023"; js "2022"].
Proof. eexists. split; [reflexivity|]. split; reflexivity. Qed.

(** ** C1: one entry per post, linked by its slug *)

(** C1, as the code has it: in a run that completes, a discovered file
    whose header block holds a quoted title and a date that parses, and
    whose path holds [.md] only as its extension, has exactly one item in
    the post list of the document written; the item shows the title and
    links to the site prefix, the slug and a closing slash, where the slug
    is the relative path without its extension, separators normalized to
    [/], the case of the letters kept; the other items of the list are
    those of the other files, and none of them carries this slug. *)
Theorem post_entry_once
        (Date_parse : jsstring -> number) (localeCompare : jsstring -> jsstring -> Z)
        (readme_head readme_mid readme_tail : jsstring)
        (w w' : world) (l1 l2 : list mdfile) (f : mdfile)
        (fm ttl : match_array) (t : Z) :
  findMarkdownFiles (os w) [] (blog w) = l1 ++ f :: l2 ->
  match_ (content f) frontmatter_re = Some fm ->
  match_ (m1 fm) title_re = Some ttl ->
  Date_parse (group_or_empty (match_ (m1 fm) date_re)) = Num t ->
  indexOf (relativePath f) (js ".md") = Some (length (relativePath f) - 3) ->
  (forall f', In f' (l1 ++ l2) ->
              slug_of (relativePath f') <> slug_of (relativePath f)) ->
  main Date_parse localeCompare readme_head readme_mid readme_tail w = Normal w' ->
  exists stem above below cves ys,
    relativePath f = stem ++ js ".md" /\
    output w'
    = Some (readme_head
            ++ concat (map post_item above)
            ++ (js "  * [" ++ m1 ttl ++ js "](" ++ js "https://jomar.fr/blog/"
                ++ slashes stem ++ js "/" ++ js ")" ++ newline)
            ++ concat (map post_item below)
            ++ readme_mid ++ concat (map (year_section cves) ys) ++ readme_tail) /\
    Permutation (above ++ below) (records Date_parse (l1 ++ l2)) /\
    (forall p, In p (above ++ below) -> slug p <> slashes stem).
Proof.
  intros Hfiles Hfm Httl Hdate Hidx Huniq Hmain.
  assert (Hin : In f (findMarkdownFiles (os w) [] (blog w)))
    by (rewrite Hfiles; apply in_elt).
  destruct (findMarkdownFiles_md _ _ _ _ Hin) as [stem Hstem].
  assert (Hslug : slug_of (relativePath f) = slashes stem).
  { unfold slug_of. rewrite Hstem in *. rewrite length_app in Hidx. simpl in Hidx.
    replace (length stem + 3 - 3) with (length stem) in Hidx by lia.
    rewrite <- (app_nil_r (js ".md")) at 1.
    rewrite replace_at; [now rewrite app_nil_r|].
    now rewrite app_nil_r. }
  set (e := {| title := m1 ttl; date := Num t; slug := slashes stem |}).
  assert (He : post_of Date_parse f = Some e).
  { rewrite (post_of_Some _ _ Hfm), Httl, Hdate, Hslug. reflexivity. }
  pose proof (blogPosts_Permutation Date_parse (findMarkdownFiles (os w) [] (blog w))) as P.
  rewrite Hfiles, records_app in P. simpl in P.
  unfold records at 2 in P. simpl in P. rewrite He in P.
  fold (records Date_parse l2) in P.
  assert (Hine : In e (blogPosts Date_parse (l1 ++ f :: l2))).
  { eapply Permutation_in; [symmetry; exact P|apply in_elt]. }
  apply in_split in Hine as (a & b & Hab).
  rewrite Hab in P. apply Permutation_app_inv in P. rewrite <- records_app in P.
  assert (Hother : forall p, In p (a ++ b) -> slug p <> slashes stem).
  { intros p Hp. apply (Permutation_in _ P) in Hp.
    apply In_records in Hp as (f' & Hf' & Hp).
    rewrite (post_of_slug _ _ Hp), <- Hslug. now apply Huniq. }
  destruct (main_Normal_inv _ _ _ _ _ _ Hmain) as (cves & o & _ & _ & Hout).
  exists stem, a, b, cves, (years localeCompare o).
  split; [exact Hstem|]. split; [|split; [exact P|exact Hother]].
  rewrite Hout, Hfiles, Hab. unfold document.
  rewrite map_app, concat_app. cbn [map concat].
  unfold post_item at 2. cbn [title slug e].
  rewrite <- !app_assoc. reflexivity.
Qed.

Lemma post_entry_once_witness :
  exists stem above below cves ys,
    relativePath ethernaut = stem ++ js ".md" /\
    output sample_written
    = Some (js "<head>"
            ++ concat (map post_item above)
            ++ (js "  * [" ++ js "Ethernaut - Dex Two" ++ js "](" ++ js "https://jomar.fr/blog/"
                ++ slashes stem ++ js "/" ++ js ")" ++ newline)
            ++ concat (map post_item below)
            ++ js "<mid>" ++ concat (map (year_section cves) ys) ++ js "<tail>") /\
    Permutation (above ++ below)
      (records Instance.Date_parse
         ([sample_file "wordpress.md" ["title: 'Investigating'"; "date: 2026-01-07"]]
          ++ [sample_file "2025/side_entrance/index.md"
                          ["title: 'Side Entrance'"; "date: 2025-04-14"];
              draft;
              sample_file "same-day.md" ["title: 'Second of the day'"; "date: 2025-05-18"]])) /\
    (forall p, In p (above ++ below) -> slug p <> slashes stem).
Proof.
  apply (@post_entry_once Instance.Date_parse Instance.localeCompare
           (js "<head>") (js "<mid>") (js "<tail>") sample_world sample_written
           [sample_file "wordpress.md" ["title: 'Investigating'"; "date: 2026-01-07"]]
           [sample_file "2025/side_entrance/index.md"
                        ["title: 'Side Entrance'"; "date: 2025-04-14"];
            draft;
            sample_file "same-day.md" ["title: 'Second of the day'"; "date: 2025-05-18"]]
           ethernaut
           {| m0 := js "---" ++ newline ++ js "title: 'Ethernaut - Dex Two'" ++ newline
                    ++ js "date: 2025-05-18" ++ newline ++ js "---";
              m1 := js "title: 'Ethernaut - Dex Two'" ++ newline ++ js "date: 2025-05-18" |}
           {| m0 := js "title: 'Ethernaut - Dex Two'"; m1 := js "Ethernaut - Dex Two" |}
           1747526400000%Z).
  - vm_compute. reflexivity.
  - vm_compute. reflexivity.
  - vm_compute. reflexivity.
  - vm_compute. reflexivity.
  - vm_compute. reflexivity.
  - intros f' H. simpl in H.
    repeat (destruct H as [<-|H]; [vm_compute; discriminate|]). destruct H.
  - vm_compute. reflexivity.
Defined.

(** C1, as stated, fails where a name has a capital letter: the link keeps
    the capital, so no entry of the output starts with the site prefix
    followed by the lowercased slug. *)
Lemma slug_keeps_capitals :
  let files := findMarkdownFiles posix []
                 [File (js "Hello.md") (doc ["title: 'Hello'"; "date: 2025-01-01"])] in
  map relativePath files = [js "Hello.md"] /\
  lowercased_slug (js "Hello.md") = js "hello" /\
  map post_url (blogPosts Instance.Date_parse files) = [js "https://jomar.fr/blog/Hello/"] /\
  forall p, In p (blogPosts Instance.Date_parse files) ->
            startsWith (post_url p) (site_prefix ++ lowercased_slug (js "Hello.md")) = false.
Proof.
  repeat split; try (vm_compute; reflexivity).
  intros p H. vm_compute in H. destruct H as [<-|[]]. vm_compute. reflexivity.
Qed.

(** ** C2: documents without a header block, or without a field *)

(** C2, as the code has it: a discovered document is left out of the
    document written exactly when it has no leading header block, the post
    list being then the one of the other documents; with a header block it
    has its item in the post list whatever fields the block holds, with an
    empty title when no quoted title is found and the date of the empty
    string when no date field is found; and in neither case does the
    document stop the run, which ends by an exception exactly when the run
    on the same site without the document does. *)
Theorem excluded_iff_no_header
        (Date_parse : jsstring -> number) (localeCompare : jsstring -> jsstring -> Z)
        (readme_head readme_mid readme_tail : jsstring)
        (w w2 : world) (l1 l2 : list mdfile) (f : mdfile) :
  findMarkdownFiles (os w) [] (blog w) = l1 ++ f :: l2 ->
  findMarkdownFiles (os w2) [] (blog w2) = l1 ++ l2 ->
  cves_json w2 = cves_json w ->
  (match_ (content f) frontmatter_re = None ->
   post_of Date_parse f = None /\
   forall w',
     main Date_parse localeCompare readme_head readme_mid readme_tail w = Normal w' ->
     exists posts cves ys,
       output w' = Some (document readme_head readme_mid readme_tail posts cves ys) /\
       Permutation posts (records Date_parse (l1 ++ l2)) /\
       exists w2',
         main Date_parse localeCompare readme_head readme_mid readme_tail w2 = Normal w2' /\
         output w2' = output w') /\
  (forall fm,
     match_ (content f) frontmatter_re = Some fm ->
     exists p,
       post_of Date_parse f = Some p /\
       slug p = slug_of (relativePath f) /\
       (match_ (m1 fm) title_re = None -> title p = []) /\
       (match_ (m1 fm) date_re = None -> date p = Date_parse []) /\
       (match_ (m1 fm) date_re = None -> Date_parse [] = NaN -> date p = NaN) /\
       forall w',
         main Date_parse localeCompare readme_head readme_mid readme_tail w = Normal w' ->
         exists above below cves ys,
           output w'
           = Some (document readme_head readme_mid readme_tail
                     (above ++ p :: below) cves ys) /\
           Permutation (above ++ below) (records Date_parse (l1 ++ l2))) /\
  (forall e,
     main Date_parse localeCompare readme_head readme_mid readme_tail w = Throw e
     <-> main Date_parse localeCompare readme_head readme_mid readme_tail w2 = Throw e).
Proof.
  intros Hfiles Hfiles2 Hcves. split; [|split].
  - intros Hno. assert (Hf : post_of Date_parse f = None) by now apply post_of_None.
    split; [exact Hf|]. intros w' Hmain.
    destruct (main_Normal_inv _ _ _ _ _ _ Hmain) as (cves & o & Hc & Ho & Hout).
    rewrite Hfiles, (blogPosts_skip _ l1 l2 f Hf) in Hout.
    exists (blogPosts Date_parse (l1 ++ l2)), cves, (years localeCompare o).
    split; [exact Hout|]. split; [apply blogPosts_Permutation|].
    rewrite <- Hcves in Hc.
    eexists. split; [apply (main_writes_document _ _ _ _ _ w2 Hc Ho)|].
    cbn [output]. now rewrite Hfiles2, Hout.
  - intros fm Hfm.
    set (p := {| title := group_or_empty (match_ (m1 fm) title_re);
                 date := Date_parse (group_or_empty (match_ (m1 fm) date_re));
                 slug := slug_of (relativePath f) |}).
    assert (Hp : post_of Date_parse f = Some p) by apply (post_of_Some _ _ Hfm).
    exists p. split; [exact Hp|]. split; [reflexivity|].
    split; [intros H; unfold p; cbn [title]; now rewrite H|].
    split; [intros H; unfold p; cbn [date]; now rewrite H|].
    split; [intros H E; unfold p; cbn [date]; now rewrite H|].
    intros w' Hmain.
    destruct (main_Normal_inv _ _ _ _ _ _ Hmain) as (cves & o & _ & _ & Hout).
    pose proof (blogPosts_Permutation Date_parse (findMarkdownFiles (os w) [] (blog w))) as P.
    rewrite Hfiles, records_app in P. simpl in P.
    unfold records at 2 in P. simpl in P. rewrite Hp in P.
    fold (records Date_parse l2) in P.
    assert (Hin : In p (blogPosts Date_parse (l1 ++ f :: l2))).
    { eapply Permutation_in; [symmetry; exact P|apply in_elt]. }
    apply in_split in Hin as (a & b & Hab).
    rewrite Hab in P. apply Permutation_app_inv in P. rewrite <- records_app in P.
    exists a, b, cves, (years localeCompare o).
    split; [|exact P]. now rewrite Hout, Hfiles, Hab.
  - intros e. now apply main_throws_alike.
Qed.

Lemma excluded_iff_no_header_witness :
  match_ (content draft) frontmatter_re = None /\
  ((match_ (content draft) frontmatter_re = None ->
    post_of Instance.Date_parse draft = None /\
    forall w',
      sample_main sample_world = Normal w' ->
      exists posts cves ys,
        output w' = Some (document (js "<head>") (js "<mid>") (js "<tail>") posts cves ys) /\
        Permutation posts
          (records Instance.Date_parse
             ([sample_file "wordpress.md" ["title: 'Investigating'"; "date: 2026-01-07"];
               ethernaut;
               sample_file "2025/side_entrance/index.md"
                           ["title: 'Side Entrance'"; "date: 2025-04-14"]]
              ++ [sample_file "same-day.md"
                              ["title: 'Second of the day'"; "date: 2025-05-18"]])) /\
        exists w2',
          sample_main sample_world_without_draft = Normal w2' /\
          output w2' = output w') /\
   (forall fm,
      match_ (content draft) frontmatter_re = Some fm ->
      exists p,
        post_of Instance.Date_parse draft = Some p /\
        slug p = slug_of (relativePath draft) /\
        (match_ (m1 fm) title_re = None -> title p = []) /\
        (match_ (m1 fm) date_re = None -> date p = Instance.Date_parse []) /\
        (match_ (m1 fm) date_re = None -> Instance.Date_parse [] = NaN -> date p = NaN) /\
        forall w',
          sample_main sample_world = Normal w' ->
          exists above below cves ys,
            output w'
            = Some (document (js "<head>") (js "<mid>") (js "<tail>")
                      (above ++ p :: below) cves ys) /\
            Permutation (above ++ below)
              (records Instance.Date_parse
                 ([sample_file "wordpress.md" ["title: 'Investigating'"; "date: 2026-01-07"];
                   ethernaut;
                   sample_file "2025/side_entrance/index.md"
                               ["title: 'Side Entrance'"; "date: 2025-04-14"]]
                  ++ [sample_file "same-day.md"
                                  ["title: 'Second of the day'"; "date: 2025-05-18"]]))) /\
   (forall e, sample_main sample_world = Throw e
              <-> sample_main sample_world_without_draft = Throw e)).
Proof.
  split; [vm_compute; reflexivity|].
  apply (@excluded_iff_no_header Instance.Date_parse Instance.localeCompare
           (js "<head>") (js "<mid>") (js "<tail>")
           sample_world sample_world_without_draft
           [sample_file "wordpress.md" ["title: 'Investigating'"; "date: 2026-01-07"];
            ethernaut;
            sample_file "2025/side_entrance/index.md"
                        ["title: 'Side Entrance'"; "date: 2025-04-14"]]
           [sample_file "same-day.md" ["title: 'Second of the day'"; "date: 2025-05-18"]]
           draft).
  - vm_compute. reflexivity.
  - vm_compute. reflexivity.
  - reflexivity.
Defined.

(** C2, as stated, fails on a document whose header block has a date and
    no title: it is listed, with an empty title. *)
Lemma untitled_post_listed :
  let files := findMarkdownFiles posix []
                 [File (js "untitled.md") (doc ["date: 2025-01-01"])] in
  map relativePath files = [js "untitled.md"] /\
  option_map (fun fm => match_ (m1 fm) title_re)
             (match_ (doc ["date: 2025-01-01"]) frontmatter_re) = Some None /\
  blogPosts Instance.Date_parse files
  = [{| title := []; date := Num 1735689600000; slug := js "untitled" |}] /\
  post_list (blogPosts Instance.Date_parse files)
  = js "  * [](https://jomar.fr/blog/untitled/)" ++ newline.
Proof. repeat split; vm_compute; reflexivity. Qed.

(** ** C6: a document without a header block is skipped silently *)




(** ** C7: a header block without a title or a valid date *)



(** ** C3: the order of the posts *)

(** C3, as the code has it: in a run that completes, when the dates of
    all the posts parsed, the items of the post list of the document
    written are, from top to bottom, the posts in non-increasing order of
    date across the whole list, each post once, and the posts of one date
    are in the order in which they were discovered. *)
Theorem posts_newest_first
        (Date_parse : jsstring -> number) (localeCompare : jsstring -> jsstring -> Z)
        (readme_head readme_mid readme_tail : jsstring) (w w' : world) :
  Forall valid (records Date_parse (findMarkdownFiles (os w) [] (blog w))) ->
  main Date_parse localeCompare readme_head readme_mid readme_tail w = Normal w' ->
  exists posts cves ys,
    output w' = Some (document readme_head readme_mid readme_tail posts cves ys) /\
    Permutation posts (records Date_parse (findMarkdownFiles (os w) [] (blog w))) /\
    non_increasing posts /\
    forall t, filter (dated t) posts
              = filter (dated t) (records Date_parse (findMarkdownFiles (os w) [] (blog w))).
Proof.
  intros Hv Hmain.
  destruct (main_Normal_inv _ _ _ _ _ _ Hmain) as (cves & o & _ & _ & Hout).
  set (files := findMarkdownFiles (os w) [] (blog w)) in *.
  exists (blogPosts Date_parse files), cves, (years localeCompare o).
  split; [exact Hout|]. split; [apply blogPosts_Permutation|]. split.
  - assert (Hv' : Forall valid (blogPosts Date_parse files)).
    { eapply Permutation_Forall; [symmetry; apply blogPosts_Permutation|exact Hv]. }
    apply StronglySorted_impl_In with (R := before by_date).
    + rewrite Forall_forall in Hv'. intros x y Hx Hy.
      specialize (Hv' x Hx) as Vx. specialize (Hv' y Hy) as Vy.
      unfold valid, before, Array.SortCompare, by_date in *.
      destruct (date x), (date y); simpl; try congruence.
      intros H. apply Z.leb_le. lia.
    + apply sort_sorted with (ok := valid).
      * apply by_date_total.
      * apply by_date_trans.
      * exact Hv.
  - intros t. apply sort_stable. intros x y _ _.
    unfold dated, before, Array.SortCompare, by_date.
    destruct (date x), (date y); simpl; try discriminate.
    intros Hx Hy. apply Z.eqb_eq in Hx, Hy. lia.
Qed.

Lemma posts_newest_first_witness :
  exists posts cves ys,
    output sample_written
    = Some (document (js "<head>") (js "<mid>") (js "<tail>") posts cves ys) /\
    Permutation posts
      (records Instance.Date_parse (findMarkdownFiles (os sample_world) [] (blog sample_world))) /\
    non_increasing posts /\
    forall t, filter (dated t) posts
              = filter (dated t)
                  (records Instance.Date_parse
                     (findMarkdownFiles (os sample_world) [] (blog sample_world))).
Proof.
  apply (@posts_newest_first Instance.Date_parse Instance.localeCompare
           (js "<head>") (js "<mid>") (js "<tail>") sample_world sample_written).
  - vm_compute. repeat constructor; discriminate.
  - vm_compute. reflexivity.
Defined.

(** C3, as stated, fails when a date did not parse: every comparison with
    the undated post counts as a tie, so three posts discovered in the
    order January, undated, February are written in that order, the
    January post above the February one. *)
Lemma undated_post_breaks_order :
  let files := findMarkdownFiles posix []
                 [File (js "a.md") (doc ["title: 'January'"; "date: 2025-01-01"]);
                  File (js "b.md") (doc ["title: 'Undated'"]);
                  File (js "c.md") (doc ["title: 'February'"; "date: 2025-02-01"])] in
  map (fun p => (title p, date p)) (blogPosts Instance.Date_parse files)
  = [(js "January", Num 1735689600000); (js "Undated", NaN);
     (js "February", Num 1738368000000)] /\
  ~ StronglySorted (fun a b => lt (date a) (date b) = false)
      (blogPosts Instance.Date_parse files) /\
  ~ non_increasing (blogPosts Instance.Date_parse files).
Proof.
  split; [vm_compute; reflexivity|]. split.
  - intros H.
    assert (E : lt (Num 1735689600000) (Num 1738368000000) = false); [|discriminate].
    apply (StronglySorted_nth H (i := 0) (j := 2)
             (a := {| title := js "January"; date := Num 1735689600000; slug := js "a" |})
             (b := {| title := js "February"; date := Num 1738368000000; slug := js "c" |}));
      [lia|vm_compute; reflexivity|vm_compute; reflexivity].
  - intros H.
    assert (E : ge (Num 1735689600000) NaN = true); [|discriminate].
    apply (StronglySorted_nth H (i := 0) (j := 1)
             (a := {| title := js "January"; date := Num 1735689600000; slug := js "a" |})
             (b := {| title := js "Undated"; date := NaN; slug := js "b" |}));
      [lia|vm_compute; reflexivity|vm_compute; reflexivity].
Qed.

(** ** C9: the first [.md] of the path is the one removed *)



(** ** C4: advisories under year headings *)

(** C4, as the code has it: in a run that completes, the advisory part of
    the document written is one block per year found in the input; the
    block of a year is headed by the year as the field spells it and
    lists the advisories of that year, all of them, in input order; every
    advisory has the block of its year; and the blocks are in descending
    order of the collation of [localeCompare], which is the descending
    lexicographic order of the code units only where the collation agrees
    with it on the years, as it does on years of four digits. *)
Theorem advisories_under_year_headings
        (Date_parse : jsstring -> number) (localeCompare : jsstring -> jsstring -> Z)
        (readme_head readme_mid readme_tail : jsstring)
        (w w' : world) (cves : list cve) :
  cves_json w = parsed cves ->
  collation localeCompare (year_fields cves) ->
  main Date_parse localeCompare readme_head readme_mid readme_tail w = Normal w' ->
  exists posts ys,
    output w'
    = Some (readme_head ++ concat (map post_item posts) ++ readme_mid
            ++ concat (map (fun year =>
                              year_heading year
                              ++ concat (map advisory_item (of_year year cves))
                              ++ year_closing)
                           ys)
            ++ readme_tail) /\
    NoDup ys /\
    (forall c, In c cves -> In (cve_date c) ys) /\
    (forall year, In year ys -> exists c, In c cves /\ cve_date c = year) /\
    (forall year c, In c (of_year year cves) <-> In c cves /\ cve_date c = year) /\
    StronglySorted (fun a b => (localeCompare a b >= 0)%Z) ys /\
    ((forall a b, In a ys -> In b ys ->
                  (localeCompare a b >= 0)%Z -> (codeUnitCompare a b >= 0)%Z) ->
     StronglySorted (fun a b => (codeUnitCompare a b >= 0)%Z) ys).
Proof.
  intros Hcves Hcol Hmain.
  destruct (main_Normal_inv _ _ _ _ _ _ Hmain) as (cves' & o & Hc & Ho & Hout).
  assert (cves' = cves) as -> by congruence.
  pose proof (cvesByYear_grouped _ Ho) as Hg.
  pose proof (years_Permutation localeCompare o) as P.
  assert (Hin : forall k, In k (years localeCompare o) -> In k (year_fields cves)).
  { intros k Hk. apply (grouped_year_fields _ Hg). now apply (Permutation_in _ P). }
  assert (Hdesc : StronglySorted (fun a b => (localeCompare a b >= 0)%Z)
                                 (years localeCompare o)).
  { pose proof (years_descending o Hcol (fun k => grouped_year_fields k Hg)) as S.
    eapply StronglySorted_impl_In; [|exact S]. intros a b Ha Hb H.
    destruct Hcol as [Htot _]. specialize (Htot b a (Hin b Hb) (Hin a Ha)).
    simpl in H. lia. }
  exists (blogPosts Date_parse (findMarkdownFiles (os w) [] (blog w))), (years localeCompare o).
  split; [exact Hout|].
  split; [apply (Permutation_NoDup (Permutation_sym P)); apply Hg|].
  split; [|split; [|split; [|split; [exact Hdesc|]]]].
  - intros c Hc'. apply (Permutation_in _ (Permutation_sym P)).
    apply (grouped_keys _ Hg). eauto.
  - intros year Hy. apply (grouped_keys _ Hg). now apply (Permutation_in _ P).
  - intros year c. unfold of_year. rewrite filter_In. split.
    + intros [Hc' E]. apply eqb_eq in E. auto.
    + intros [Hc' <-]. split; [assumption|apply eqb_refl].
  - intros Hagree. eapply StronglySorted_impl_In; [exact Hagree|exact Hdesc].
Qed.

Lemma advisories_under_year_headings_witness :
  exists posts ys,
    output sample_written
    = Some (js "<head>" ++ concat (map post_item posts) ++ js "<mid>"
            ++ concat (map (fun year =>
                              year_heading year
                              ++ concat (map advisory_item (of_year year sample_cves))
                              ++ year_closing)
                           ys)
            ++ js "<tail>") /\
    NoDup ys /\
    (forall c, In c sample_cves -> In (cve_date c) ys) /\
    (forall year, In year ys -> exists c, In c sample_cves /\ cve_date c = year) /\
    (forall year c, In c (of_year year sample_cves) <-> In c sample_cves /\ cve_date c = year) /\
    StronglySorted (fun a b => (Instance.localeCompare a b >= 0)%Z) ys /\
    ((forall a b, In a ys -> In b ys ->
                  (Instance.localeCompare a b >= 0)%Z -> (codeUnitCompare a b >= 0)%Z) ->
     StronglySorted (fun a b => (codeUnitCompare a b >= 0)%Z) ys).
Proof.
  apply (@advisories_under_year_headings Instance.Date_parse Instance.localeCompare
           (js "<head>") (js "<mid>") (js "<tail>") sample_world sample_written sample_cves).
  - reflexivity.
  - apply instance_collation.
  - vm_compute. reflexivity.
Defined.

(** C4, as stated, fails on years that are not all digits: the headings
    follow the collation, in which a capital letter comes after its small
    letter and both come after the digits, and not the code units, in
    which the capital letters come before the small ones.  For advisories
    of the years [a], [B], [2024] and [b] the blocks are written in the
    order [B], [b], [a], [2024], whereas [b] is above [B] in the
    descending lexicographic order of the code units. *)
Lemma headings_follow_collation :
  let w := {| os := posix;
              cves_json := parsed [advisory "CVE-1" "a"; advisory "CVE-2" "B";
                                   advisory "CVE-3" "2024"; advisory "CVE-4" "b"];
              blog := []; output := None |} in
  match sample_main w with
  | Normal w' => output w'
  | Throw _ => None
  end
  = Some (js "<head>" ++ js "<mid>"
          ++ unlines ["<details>"; "  <summary>B</summary>"; "";
                      "  * [CVE-2](https://example.org/CVE-2) - XSS in [Target](https://example.org/CVE-2)";
                      "</details>"; "";
                      "<details>"; "  <summary>b</summary>"; "";
                      "  * [CVE-4](https://example.org/CVE-4) - XSS in [Target](https://example.org/CVE-4)";
                      "</details>"; "";
                      "<details>"; "  <summary>a</summary>"; "";
                      "  * [CVE-1](https://example.org/CVE-1) - XSS in [Target](https://example.org/CVE-1)";
                      "</details>"; "";
                      "<details>"; "  <summary>2024</summary>"; "";
                      "  * [CVE-3](https://example.org/CVE-3) - XSS in [Target](https://example.org/CVE-3)";
                      "</details>"; ""]
          ++ js "<tail>") /\
  codeUnitCompare (js "B") (js "b") = (-1)%Z /\
  ~ StronglySorted (fun a b => (codeUnitCompare a b >= 0)%Z)
      [js "B"; js "b"; js "a"; js "2024"].
Proof.
  split; [vm_compute; reflexivity|]. split; [reflexivity|].
  intros H.
  assert (E : (codeUnitCompare (js "B") (js "b") >= 0)%Z); [|vm_compute in E; now apply E].
  apply (StronglySorted_nth H (i := 0) (j := 1)); [lia|reflexivity|reflexivity].
Qed.

(** ** C5: the advisory file cannot be loaded *)

(** C5: when the advisory file cannot be read or is not JSON, the run ends
    by an exception, the exit status is 1, and nothing is written: the
    files are as they were. *)
Theorem load_failure_aborts
        (Date_parse : jsstring -> number) (localeCompare : jsstring -> jsstring -> Z)
        (readme_head readme_mid readme_tail : jsstring) (w : world) :
  cves_json w = unreadable \/ cves_json w = malformed ->
  (exists e, main Date_parse localeCompare readme_head readme_mid readme_tail w = Throw e) /\
  exit_code Date_parse localeCompare readme_head readme_mid readme_tail w = 1%Z /\
  after Date_parse localeCompare readme_head readme_mid readme_tail w = w /\
  output (after Date_parse localeCompare readme_head readme_mid readme_tail w) = output w.
Proof.
  intros H. unfold exit_code, after, main, load_cves.
  destruct H as [-> | ->]; simpl; eauto.
Qed.

Lemma load_failure_aborts_witness :
  (exists e, sample_main {| os := posix; cves_json := malformed; blog := sample_blog;
                            output := Some (js "old") |} = Throw e) /\
  exit_code Instance.Date_parse Instance.localeCompare (js "<head>") (js "<mid>") (js "<tail>")
            {| os := posix; cves_json := malformed; blog := sample_blog;
               output := Some (js "old") |} = 1%Z /\
  after Instance.Date_parse Instance.localeCompare (js "<head>") (js "<mid>") (js "<tail>")
        {| os := posix; cves_json := malformed; blog := sample_blog;
           output := Some (js "old") |}
  = {| os := posix; cves_json := malformed; blog := sample_blog; output := Some (js "old") |} /\
  output (after Instance.Date_parse Instance.localeCompare (js "<head>") (js "<mid>") (js "<tail>")
                {| os := posix; cves_json := malformed; blog := sample_blog;
                   output := Some (js "old") |})
  = Some (js "old").
Proof.
  apply (@load_failure_aborts Instance.Date_parse Instance.localeCompare
           (js "<head>") (js "<mid>") (js "<tail>")
           {| os := posix; cves_json := malformed; blog := sample_blog;
              output := Some (js "old") |}).
  right. reflexivity.
Defined.

(** ** C8: no post at all *)

(** C8 fails on the code: with no markdown file under the content root and
    an advisory file that loads, one advisory whose year field is
    [constructor] ends the run by a [TypeError] in the grouping, as in C10;
    the exit status is 1 and no document is written, neither the empty post
    list nor the advisory blocks. *)
Theorem empty_blog_run_aborts
        (Date_parse : jsstring -> number) (localeCompare : jsstring -> jsstring -> Z)
        (readme_head readme_mid readme_tail : jsstring) :
  findMarkdownFiles posix [] [Dir (js "2025") [File (js "notes.txt") (js "text")]] = [] /\
  load_cves {| os := posix;
               cves_json := parsed [advisory "CVE-2024-1" "2024";
                                    advisory "CVE-0000-0" "constructor"];
               blog := [Dir (js "2025") [File (js "notes.txt") (js "text")]];
               output := None |}
  = Normal [advisory "CVE-2024-1" "2024"; advisory "CVE-0000-0" "constructor"] /\
  main Date_parse localeCompare readme_head readme_mid readme_tail
       {| os := posix;
          cves_json := parsed [advisory "CVE-2024-1" "2024";
                               advisory "CVE-0000-0" "constructor"];
          blog := [Dir (js "2025") [File (js "notes.txt") (js "text")]];
          output := None |}
  = Throw TypeError /\
  exit_code Date_parse localeCompare readme_head readme_mid readme_tail
            {| os := posix;
               cves_json := parsed [advisory "CVE-2024-1" "2024";
                                    advisory "CVE-0000-0" "constructor"];
               blog := [Dir (js "2025") [File (js "notes.txt") (js "text")]];
               output := None |}
  = 1%Z /\
  output (after Date_parse localeCompare readme_head readme_mid readme_tail
                {| os := posix;
                   cves_json := parsed [advisory "CVE-2024-1" "2024";
                                        advisory "CVE-0000-0" "constructor"];
                   blog := [Dir (js "2025") [File (js "notes.txt") (js "text")]];
                   output := None |})
  = None.
Proof.
  assert (H : cvesByYear [advisory "CVE-2024-1" "2024"; advisory "CVE-0000-0" "constructor"]
              = Throw TypeError) by (vm_compute; reflexivity).
  split; [reflexivity|]. split; [reflexivity|].
  unfold exit_code, after, main, load_cves. cbn [cves_json bind]. rewrite H.
  repeat split.
Qed.

(** ** C10: a year that names an inherited property *)

(** C10 fails on the code: for an advisory whose year field is
    [constructor], [acc[year]] is the function every object inherits, the
    array is not created, [push] is not a function and the run ends by a
    [TypeError] before anything is written; the advisory has no line. *)
Theorem inherited_year_aborts
        (Date_parse : jsstring -> number) (localeCompare : jsstring -> jsstring -> Z)
        (readme_head readme_mid readme_tail : jsstring) :
  cvesByYear [advisory "CVE-2024-1" "2024"; advisory "CVE-0000-0" "constructor"]
  = Throw TypeError /\
  main Date_parse localeCompare readme_head readme_mid readme_tail
       {| os := posix;
          cves_json := parsed [advisory "CVE-2024-1" "2024";
                               advisory "CVE-0000-0" "constructor"];
          blog := sample_blog; output := None |}
  = Throw TypeError /\
  output (after Date_parse localeCompare readme_head readme_mid readme_tail
                {| os := posix;
                   cves_json := parsed [advisory "CVE-2024-1" "2024";
                                        advisory "CVE-0000-0" "constructor"];
                   blog := sample_blog; output := None |})
  = None.
Proof.
  assert (H : cvesByYear [advisory "CVE-2024-1" "2024"; advisory "CVE-0000-0" "constructor"]
              = Throw TypeError) by (vm_compute; reflexivity).
  split; [exact H|].
  unfold after, main, load_cves. cbn [cves_json bind]. rewrite H. split; reflexivity.
Qed.

(** The grouping throws for any input in which a year names an inherited
    property, and for no other input; when it returns, the advisories
    under the year headings are those of the input, each once. *)
Lemma grouping_partitions_or_throws (localeCompare : jsstring -> jsstring -> Z)
      (cves : list cve) :
  (Exists (fun c => inherited_name (cve_date c) = true) cves /\
   cvesByYear cves = Throw TypeError)
  \/ (Forall (fun c => inherited_name (cve_date c) = false) cves /\
      exists o, cvesByYear cves = Normal o /\
                Permutation (flat_map (group_of o) (years localeCompare o)) cves).
Proof.
  destruct (Forall_Exists_dec (fun c => inherited_name (cve_date c) = false)
              (fun c => bool_dec _ false) cves) as [F|E].
  - right. split; [exact F|]. destruct (cvesByYear_ok F) as (o & Ho & _).
    exists o. split; [exact Ho|]. now apply groups_partition.
  - left. assert (E' : Exists (fun c => inherited_name (cve_date c) = true) cves).
    { eapply Exists_impl; [|exact E]. intros c Hc. simpl in Hc.
      now destruct (inherited_name (cve_date c)). }
    split; [exact E'|]. now apply cvesByYear_throws.
Qed.

(** * Further properties *)

(** ** The matcher and the words of a pattern *)

Section MatcherFacts.
Variable R : Type.

Lemma star_greedy_sound (p : char -> bool) (k : nat -> jsstring -> option R)
      (pos : nat) (s : jsstring) (x : R) :
  star_greedy p k pos s = Some x ->
  exists u s', s = u ++ s' /\ forallb p u = true /\ k (pos + length u) s' = Some x.
Proof.
  revert pos. induction s as [|c s IH]; intros pos H; simpl in H.
  - exists [], []. now rewrite Nat.add_0_r.
  - destruct (p c) eqn:Pc.
    + destruct (star_greedy p k (S pos) s) as [y|] eqn:E.
      * injection H as <-. destruct (IH _ E) as (u & s' & -> & Hu & Hk).
        exists (c :: u), s'. simpl. rewrite Pc, Hu.
        now replace (pos + S (length u)) with (S pos + length u) by lia.
      * exists [], (c :: s). now rewrite Nat.add_0_r.
    + exists [], (c :: s). now rewrite Nat.add_0_r.
Qed.

Lemma star_lazy_sound (p : char -> bool) (k : nat -> jsstring -> option R)
      (pos : nat) (s : jsstring) (x : R) :
  star_lazy p k pos s = Some x ->
  exists u s', s = u ++ s' /\ forallb p u = true /\ k (pos + length u) s' = Some x
               /\ forall u1 u2, u = u1 ++ u2 -> u2 <> [] ->
                                k (pos + length u1) (u2 ++ s') = None.
Proof.
  revert pos. induction s as [|c s IH]; intros pos H; cbn [star_lazy] in H.
  - destruct (k pos []) eqn:E; [|discriminate]. injection H as <-.
    exists [], []. rewrite Nat.add_0_r. repeat split; try assumption.
    intros u1 u2 Hu Hne. destruct u1, u2; try discriminate. congruence.
  - destruct (k pos (c :: s)) eqn:E.
    + injection H as <-. exists [], (c :: s). rewrite Nat.add_0_r.
      repeat split; try assumption.
      intros u1 u2 Hu Hne. destruct u1, u2; try discriminate. congruence.
    + destruct (p c) eqn:Pc; [|discriminate].
      destruct (IH _ H) as (u & s' & -> & Hu & Hk & Hmin).
      exists (c :: u), s'. simpl. rewrite Pc, Hu.
      replace (pos + S (length u)) with (S pos + length u) by lia.
      repeat split; try assumption.
      intros u1 u2 Hsplit Hne. destruct u1 as [|c1 u1].
      * simpl in *. subst u2. now rewrite Nat.add_0_r.
      * simpl in Hsplit. injection Hsplit as <- ->.
        simpl. replace (pos + S (length u1)) with (S pos + length u1) by lia.
        now apply Hmin.
Qed.

Lemma star_greedy_complete (p : char -> bool) (k : nat -> jsstring -> option R)
      (pos : nat) (u t : jsstring) :
  forallb p u = true -> k (pos + length u) t <> None ->
  star_greedy p k pos (u ++ t) <> None.
Proof.
  revert pos. induction u as [|c u IH]; intros pos Hu Hk.
  - rewrite Nat.add_0_r in Hk. simpl. destruct t as [|c t]; simpl; [assumption|].
    destruct (p c); [|assumption].
    now destruct (star_greedy p k (S pos) t).
  - simpl in Hu. apply andb_true_iff in Hu as [Pc Hu]. simpl. rewrite Pc.
    assert (H : star_greedy p k (S pos) (u ++ t) <> None).
    { apply IH; [assumption|].
      now replace (S pos + length u) with (pos + length (c :: u)) by (simpl; lia). }
    now destruct (star_greedy p k (S pos) (u ++ t)).
Qed.

Lemma star_lazy_complete (p : char -> bool) (k : nat -> jsstring -> option R)
      (pos : nat) (u t : jsstring) :
  forallb p u = true -> k (pos + length u) t <> None ->
  star_lazy p k pos (u ++ t) <> None.
Proof.
  revert pos. induction u as [|c u IH]; intros pos Hu Hk.
  - rewrite Nat.add_0_r in Hk. simpl.
    destruct t as [|c t]; cbn [star_lazy]; now destruct (k pos _).
  - simpl in Hu. apply andb_true_iff in Hu as [Pc Hu].
    change ((c :: u) ++ t) with (c :: (u ++ t)). cbn [star_lazy].
    destruct (k pos (c :: u ++ t)); [discriminate|]. rewrite Pc.
    apply IH; [assumption|].
    now replace (S pos + length u) with (pos + length (c :: u)) by (simpl; lia).
Qed.

(** What the matcher consumes is a word of the pattern. *)
Lemma run_sound (r : list node) (k : nat -> jsstring -> option R)
      (pos : nat) (s : jsstring) (x : R) :
  run r k pos s = Some x ->
  exists w s', s = w ++ s' /\ accepts pos r w /\ k (pos + length w) s' = Some x.
Proof.
  revert pos s. induction r as [|n r IH]; intros pos s H.
  - exists [], s. simpl. now rewrite Nat.add_0_r.
  - destruct n as [|p|g p]; cbn [run] in H.
    + destruct (Nat.eqb_spec pos 0) as [E|E]; [|discriminate].
      destruct (IH _ _ H) as (w & s' & -> & Hw & Hk).
      exists w, s'. simpl. auto.
    + destruct s as [|c s]; [discriminate|].
      destruct (p c) eqn:Pc; [|discriminate].
      destruct (IH _ _ H) as (w & s' & -> & Hw & Hk).
      exists (c :: w), s'. simpl. repeat split.
      * exists c, w. auto.
      * now replace (pos + S (length w)) with (S pos + length w) by lia.
    + assert (Hstar : exists u s', s = u ++ s' /\ forallb p u = true
                                   /\ run r k (pos + length u) s' = Some x).
      { destruct g.
        - now apply star_greedy_sound.
        - destruct (star_lazy_sound _ _ _ _ H) as (u & s' & ? & ? & ? & _). eauto. }
      destruct Hstar as (u & s1 & -> & Hu & Hr).
      destruct (IH _ _ Hr) as (w & s' & -> & Hw & Hk).
      exists (u ++ w), s'. rewrite <- app_assoc. repeat split.
      * simpl. exists u, w. auto.
      * now rewrite length_app, Nat.add_assoc.
Qed.

(** Every word of the pattern after which the continuation succeeds is
    found, or another one is. *)
Lemma run_complete (r : list node) (k : nat -> jsstring -> option R)
      (pos : nat) (w t : jsstring) :
  accepts pos r w -> k (pos + length w) t <> None -> run r k pos (w ++ t) <> None.
Proof.
  revert pos w. induction r as [|n r IH]; intros pos w Hw Hk.
  - simpl in Hw. subst. now rewrite Nat.add_0_r in Hk.
  - destruct n as [|p|g p]; cbn [run]; simpl in Hw.
    + destruct Hw as [-> Hw]. simpl. now apply IH.
    + destruct Hw as (c & w' & -> & Pc & Hw). simpl. rewrite Pc.
      apply IH; [assumption|].
      now replace (S pos + length w') with (pos + length (c :: w')) by (simpl; lia).
    + destruct Hw as (u & v & -> & Hu & Hw). rewrite <- app_assoc.
      assert (Hr : run r k (pos + length u) (v ++ t) <> None).
      { apply IH; [assumption|]. now rewrite <- Nat.add_assoc, <- length_app. }
      destruct g; [now apply star_greedy_complete|now apply star_lazy_complete].
Qed.
End MatcherFacts.

Lemma match_at_sound (re : regex) (pos : nat) (s : jsstring) (m : match_array) :
  match_at re pos s = Some m ->
  exists w1 w2 w3 b,
    s = w1 ++ w2 ++ w3 ++ b /\
    accepts pos (pre re) w1 /\
    accepts (pos + length w1) (group re) w2 /\
    accepts (pos + length w1 + length w2) (Regex.post re) w3 /\
    m0 m = w1 ++ w2 ++ w3 /\ m1 m = w2.
Proof.
  unfold match_at. intros H.
  apply run_sound in H as (w1 & s1 & Hs & H1 & H).
  apply run_sound in H as (w2 & s2 & Hs1 & H2 & H).
  apply run_sound in H as (w3 & b & Hs2 & H3 & H).
  injection H as <-. subst s2 s1. exists w1, w2, w3, b.
  repeat split; try assumption; simpl.
  - rewrite Hs.
    replace (pos + length w1 + length w2 + length w3 - pos)
      with (length (w1 ++ w2 ++ w3)) by (rewrite !length_app; lia).
    replace (w1 ++ w2 ++ w3 ++ b) with ((w1 ++ w2 ++ w3) ++ b)
      by now rewrite <- !app_assoc.
    rewrite firstn_app, firstn_all, Nat.sub_diag. simpl. now rewrite app_nil_r.
  - replace (pos + length w1 + length w2 - (pos + length w1)) with (length w2) by lia.
    rewrite firstn_app, firstn_all, Nat.sub_diag. simpl. now rewrite app_nil_r.
Qed.

Lemma match_at_complete (re : regex) (pos : nat) (w1 w2 w3 b : jsstring) :
  accepts pos (pre re) w1 ->
  accepts (pos + length w1) (group re) w2 ->
  accepts (pos + length w1 + length w2) (Regex.post re) w3 ->
  match_at re pos (w1 ++ w2 ++ w3 ++ b) <> None.
Proof.
  intros H1 H2 H3. unfold match_at.
  apply run_complete; [assumption|].
  apply run_complete; [assumption|].
  apply run_complete; [assumption|]. discriminate.
Qed.

Lemma search_sound (re : regex) (pos : nat) (s : jsstring) (m : match_array) :
  search re pos s = Some m ->
  exists a t, s = a ++ t /\ match_at re (pos + length a) t = Some m /\
              forall a1 t1, s = a1 ++ t1 -> length a1 < length a ->
                            match_at re (pos + length a1) t1 = None.
Proof.
  revert pos. induction s as [|c s IH]; intros pos H; cbn [search] in H.
  - destruct (match_at re pos []) eqn:E; [|discriminate]. injection H as <-.
    exists [], []. rewrite Nat.add_0_r. repeat split; [assumption|].
    intros a1 t1 _ Hlt. simpl in Hlt. lia.
  - destruct (match_at re pos (c :: s)) eqn:E.
    + injection H as <-. exists [], (c :: s). rewrite Nat.add_0_r.
      repeat split; [assumption|]. intros a1 t1 _ Hlt. simpl in Hlt. lia.
    + destruct (IH _ H) as (a & t & -> & Hm & Hmin).
      exists (c :: a), t. simpl.
      replace (pos + S (length a)) with (S pos + length a) by lia.
      repeat split; [assumption|].
      intros a1 t1 Hs Hlt. destruct a1 as [|c1 a1].
      * simpl in Hs. subst t1. now rewrite Nat.add_0_r.
      * simpl in Hs. injection Hs as <- Hs. simpl in Hlt |- *.
        replace (pos + S (length a1)) with (S pos + length a1) by lia.
        apply Hmin; [assumption|lia].
Qed.

Lemma search_complete (re : regex) (pos : nat) (a t : jsstring) :
  match_at re (pos + length a) t <> None -> search re pos (a ++ t) <> None.
Proof.
  revert pos. induction a as [|c a IH]; intros pos H.
  - rewrite Nat.add_0_r in H. simpl.
    destruct t; cbn [search]; now destruct (match_at re pos _).
  - change ((c :: a) ++ t) with (c :: (a ++ t)). cbn [search].
    destruct (match_at re pos (c :: a ++ t)); [discriminate|].
    apply IH. now replace (S pos + length a) with (pos + length (c :: a)) by (simpl; lia).
Qed.

Lemma match_sound (re : regex) (s : jsstring) (m : match_array) :
  match_ s re = Some m ->
  exists a w1 w2 w3 b,
    occurs re s a w1 w2 w3 b /\
    m0 m = w1 ++ w2 ++ w3 /\ m1 m = w2 /\
    forall a1 t1, s = a1 ++ t1 -> length a1 < length a ->
                  match_at re (length a1) t1 = None.
Proof.
  unfold match_. intros H.
  apply search_sound in H as (a & t & -> & Hm & Hmin). simpl in Hm, Hmin.
  destruct (match_at_sound _ _ _ Hm) as (w1 & w2 & w3 & b & -> & H1 & H2 & H3 & E0 & E1).
  exists a, w1, w2, w3, b. repeat split; assumption.
Qed.

Lemma match_complete (re : regex) (s a w1 w2 w3 b : jsstring) :
  occurs re s a w1 w2 w3 b -> match_ s re <> None.
Proof.
  intros (Hs & H1 & H2 & H3). subst s. unfold match_.
  apply (@search_complete re 0 a (w1 ++ w2 ++ w3 ++ b)).
  simpl. now apply match_at_complete.
Qed.

(** X1: a match is an occurrence of the pattern in the input, [m[0]] is
    the text of the occurrence and [m[1]] the part its group took, and no
    occurrence starts further to the left. *)
Theorem match_is_leftmost_occurrence (re : regex) (s : jsstring) (m : match_array) :
  match_ s re = Some m ->
  exists a w1 w2 w3 b,
    occurs re s a w1 w2 w3 b /\
    m0 m = w1 ++ w2 ++ w3 /\ m1 m = w2 /\
    forall a' w1' w2' w3' b',
      occurs re s a' w1' w2' w3' b' -> length a <= length a'.
Proof.
  intros H.
  destruct (match_sound _ _ H) as (a & w1 & w2 & w3 & b & Ho & E0 & E1 & Hmin).
  exists a, w1, w2, w3, b. repeat split; try assumption; try apply Ho.
  intros a' w1' w2' w3' b' (Hs & H1' & H2' & H3').
  destruct (Nat.le_gt_cases (length a) (length a')) as [Hle|Hgt]; [assumption|].
  exfalso. apply (@match_at_complete re (length a') w1' w2' w3' b' H1' H2' H3').
  now apply Hmin.
Qed.

Lemma match_is_leftmost_occurrence_witness :
  exists a w1 w2 w3 b,
    occurs title_re (js "subtitle: 'Part one'" ++ newline ++ js "title: 'Hello'")
           a w1 w2 w3 b /\
    js "title: 'Part one'" = w1 ++ w2 ++ w3 /\ js "Part one" = w2 /\
    forall a' w1' w2' w3' b',
      occurs title_re (js "subtitle: 'Part one'" ++ newline ++ js "title: 'Hello'")
             a' w1' w2' w3' b' -> length a <= length a'.
Proof.
  apply (@match_is_leftmost_occurrence title_re
           (js "subtitle: 'Part one'" ++ newline ++ js "title: 'Hello'")
           {| m0 := js "title: 'Part one'"; m1 := js "Part one" |}).
  vm_compute. reflexivity.
Defined.

(** X2: a pattern fails on an input exactly when the input holds no
    occurrence of it: the backtracking misses none. *)
Theorem no_match_iff_no_occurrence (re : regex) (s : jsstring) :
  match_ s re = None <-> forall a w1 w2 w3 b, ~ occurs re s a w1 w2 w3 b.
Proof.
  split.
  - intros H a w1 w2 w3 b Ho. now apply (match_complete Ho).
  - intros H. destruct (match_ s re) as [m|] eqn:E; [|reflexivity].
    destruct (match_sound _ _ E) as (a & w1 & w2 & w3 & b & Ho & _).
    now apply H in Ho.
Qed.

(** ** The title and the date of a header block *)

(** The words of a literal followed by the rest of a pattern. *)
Lemma accepts_lits (p : jsstring) (r : list node) (pos : nat) (w : jsstring) :
  accepts pos (map lit p ++ r) w
  <-> exists v, w = p ++ v /\ accepts (pos + length p) r v.
Proof.
  revert pos w. induction p as [|x p IH]; intros pos w; simpl.
  - rewrite Nat.add_0_r. split; [eauto|]. now intros (v & -> & H).
  - split.
    + intros (c & w' & -> & Hc & H). apply N.eqb_eq in Hc. subst c.
      apply IH in H as (v & -> & H). exists v. split; [reflexivity|].
      now replace (pos + S (length p)) with (S pos + length p) by lia.
    + intros (v & -> & H). exists x, (p ++ v). rewrite N.eqb_refl.
      repeat split. apply IH. exists v. split; [reflexivity|].
      now replace (S pos + length p) with (pos + S (length p)) by lia.
Qed.

Lemma title_pre_words (pos : nat) (w : jsstring) :
  accepts pos (pre title_re) w
  <-> exists ws q, w = js "title:" ++ ws ++ [q]
                   /\ forallb is_space ws = true /\ is_quote q = true.
Proof.
  change (pre title_re) with (map lit (js "title:") ++ [Star true is_space; Chr is_quote]).
  rewrite accepts_lits. simpl accepts. split.
  - intros (v & -> & ws & v' & -> & Hws & q & w' & -> & Hq & ->). eauto.
  - intros (ws & q & -> & Hws & Hq). eexists. split; [reflexivity|].
    exists ws, [q]. repeat split; try assumption. exists q, []. auto.
Qed.

Lemma title_group_words (pos : nat) (w : jsstring) :
  accepts pos (group title_re) w
  <-> exists c u, w = c :: u /\ is_dot c = true /\ forallb is_dot u = true.
Proof.
  simpl. split.
  - intros (c & w' & -> & Hc & u & v & -> & Hu & ->). exists c, u.
    now rewrite app_nil_r.
  - intros (c & u & -> & Hc & Hu). exists c, u. repeat split; try assumption.
    exists u, []. now rewrite app_nil_r.
Qed.

Lemma title_post_words (pos : nat) (w : jsstring) :
  accepts pos (Regex.post title_re) w <-> exists q, w = [q] /\ is_quote q = true.
Proof.
  simpl. split.
  - intros (q & w' & -> & Hq & ->). eauto.
  - intros (q & -> & Hq). exists q, []. auto.
Qed.

(** X3: the title of a post is empty exactly when its header block holds
    no [title:] followed by white space, a quote of either kind, one or
    more characters other than line terminators, and a quote of either
    kind; the two quotes need not be the same. *)
Theorem title_empty_iff (frontmatter : jsstring) :
  group_or_empty (match_ frontmatter title_re) = []
  <-> ~ exists a ws q1 t q2 b,
          frontmatter = a ++ js "title:" ++ ws ++ [q1] ++ t ++ [q2] ++ b /\
          forallb is_space ws = true /\ is_quote q1 = true /\
          t <> [] /\ forallb is_dot t = true /\ is_quote q2 = true.
Proof.
  split.
  - intros H (a & ws & q1 & t & q2 & b & Hs & Hws & Hq1 & Ht & Hdot & Hq2).
    destruct t as [|c u]; [congruence|]. simpl in Hdot.
    apply andb_true_iff in Hdot as [Hc Hu].
    assert (Ho : occurs title_re frontmatter a (js "title:" ++ ws ++ [q1]) (c :: u) [q2] b).
    { split; [|split; [|split]].
      - rewrite Hs. now rewrite <- !app_assoc.
      - apply title_pre_words. eauto.
      - apply title_group_words. eauto.
      - apply title_post_words. eauto. }
    destruct (match_ frontmatter title_re) as [m|] eqn:E;
      [|now apply (match_complete Ho)].
    destruct (match_sound _ _ E) as (a' & w1 & w2 & w3 & b' & (_ & _ & H2 & _) & _ & E1 & _).
    apply title_group_words in H2 as (c' & u' & -> & _). simpl in H. congruence.
  - intros H. destruct (match_ frontmatter title_re) as [m|] eqn:E; [|reflexivity].
    exfalso. apply H.
    destruct (match_sound _ _ E) as (a & w1 & w2 & w3 & b & (Hs & H1 & H2 & H3) & _).
    apply title_pre_words in H1 as (ws & q1 & -> & Hws & Hq1).
    apply title_group_words in H2 as (c & u & -> & Hc & Hu).
    apply title_post_words in H3 as (q2 & -> & Hq2).
    exists a, ws, q1, (c :: u), q2, b. repeat split; try assumption.
    + rewrite Hs. now rewrite <- !app_assoc.
    + discriminate.
    + simpl. now rewrite Hc, Hu.
Qed.

Lemma firstn_length_app (A : Type) (a b : list A) :
  firstn (length a) (a ++ b) = a.
Proof.
  rewrite firstn_app, firstn_all, Nat.sub_diag. simpl. apply app_nil_r.
Qed.

Lemma no_quote_from_splits (u s' : jsstring) :
  (forall u1 u2, u = u1 ++ u2 -> u2 <> [] ->
                 match u2 ++ s' with
                 | [] => true
                 | c :: _ => negb (is_quote c)
                 end = true) ->
  forallb (fun x => negb (is_quote x)) u = true.
Proof.
  induction u as [|x u IH]; intros H; [reflexivity|]. simpl.
  assert (Hx : negb (is_quote x) = true)
    by (apply (H [] (x :: u) eq_refl); discriminate).
  rewrite Hx. simpl. apply IH. intros u1 u2 -> Hne. apply (H (x :: u1) u2 eq_refl Hne).
Qed.

(** At one position, the title stops before the first quote that follows
    its first character. *)
Lemma title_match_at_lazy (pos : nat) (s : jsstring) (m : match_array) :
  match_at title_re pos s = Some m ->
  exists w1 c u q2 b,
    s = w1 ++ (c :: u) ++ [q2] ++ b /\
    accepts pos (pre title_re) w1 /\
    is_dot c = true /\ forallb is_dot u = true /\
    forallb (fun x => negb (is_quote x)) u = true /\
    is_quote q2 = true /\ m1 m = c :: u.
Proof.
  unfold match_at. intros H.
  apply run_sound in H as (w1 & s1 & -> & H1 & H).
  change (group title_re) with [Chr is_dot; Star false is_dot] in H.
  change (Regex.post title_re) with [Chr is_quote] in H.
  cbn [run] in H.
  destruct s1 as [|c s1]; [discriminate|]. destruct (is_dot c) eqn:Hc; [|discriminate].
  apply star_lazy_sound in H as (u & s' & -> & Hu & Hk & Hmin).
  destruct s' as [|q2 b]; [discriminate|].
  destruct (is_quote q2) eqn:Hq; [|discriminate]. injection Hk as <-.
  exists w1, c, u, q2, b. repeat split; try assumption.
  - apply no_quote_from_splits with (s' := q2 :: b). intros u1 u2 Hs Hne.
    specialize (Hmin u1 u2 Hs Hne).
    destruct (u2 ++ q2 :: b) as [|x rest]; [reflexivity|].
    now destruct (is_quote x).
  - unfold m1.
    change (firstn (S (pos + length w1 + length u) - (pos + length w1))
                   (c :: u ++ q2 :: b) = c :: u).
    replace (S (pos + length w1 + length u) - (pos + length w1))
      with (length (c :: u)) by (cbn [length]; lia).
    apply (firstn_length_app (c :: u) (q2 :: b)).
Qed.

(** X4: an extracted title is cut at the first quote, of either kind,
    that follows its first character: it holds no quote after that
    character and no line terminator, and the header block reads
    [title:], white space, a quote, the title, a quote. *)
Theorem title_cut_at_first_quote (frontmatter : jsstring) (m : match_array) :
  match_ frontmatter title_re = Some m ->
  exists a ws q1 c u q2 b,
    frontmatter = a ++ js "title:" ++ ws ++ [q1] ++ (c :: u) ++ [q2] ++ b /\
    group_or_empty (match_ frontmatter title_re) = c :: u /\
    forallb is_space ws = true /\ is_quote q1 = true /\ is_quote q2 = true /\
    is_dot c = true /\ forallb is_dot u = true /\
    forallb (fun x => negb (is_quote x)) u = true.
Proof.
  intros H. rewrite H. unfold match_ in H.
  apply search_sound in H as (a & t & -> & Hm & _).
  apply title_match_at_lazy in Hm as (w1 & c & u & q2 & b & -> & H1 & Hc & Hu & Hnq & Hq2 & E).
  apply title_pre_words in H1 as (ws & q1 & -> & Hws & Hq1).
  exists a, ws, q1, c, u, q2, b. repeat split; try assumption.
  simpl. now rewrite <- !app_assoc.
Qed.

Lemma title_cut_at_first_quote_witness :
  group_or_empty (match_ (js "title: 'It's here'") title_re) = js "It" /\
  exists a ws q1 c u q2 b,
    js "title: 'It's here'" = a ++ js "title:" ++ ws ++ [q1] ++ (c :: u) ++ [q2] ++ b /\
    group_or_empty (match_ (js "title: 'It's here'") title_re) = c :: u /\
    forallb is_space ws = true /\ is_quote q1 = true /\ is_quote q2 = true /\
    is_dot c = true /\ forallb is_dot u = true /\
    forallb (fun x => negb (is_quote x)) u = true.
Proof.
  split; [vm_compute; reflexivity|].
  apply (@title_cut_at_first_quote (js "title: 'It's here'")
           {| m0 := js "title: 'It'"; m1 := js "It" |}).
  vm_compute. reflexivity.
Defined.

Lemma star_greedy_longest (R : Type) (p : char -> bool)
      (k : nat -> jsstring -> option R) (pos : nat) (s : jsstring) (x : R) :
  (forall pos s, k pos s <> None) ->
  star_greedy p k pos s = Some x ->
  exists u s', s = u ++ s' /\ forallb p u = true /\ k (pos + length u) s' = Some x
               /\ match s' with [] => True | c :: _ => p c = false end.
Proof.
  intros Hk. revert pos. induction s as [|c s IH]; intros pos H; simpl in H.
  - exists [], []. now rewrite Nat.add_0_r.
  - destruct (p c) eqn:Pc.
    + destruct (star_greedy p k (S pos) s) as [y|] eqn:E.
      * injection H as <-. destruct (IH _ E) as (u & s' & -> & Hu & Hx & Hend).
        exists (c :: u), s'. simpl. rewrite Pc, Hu.
        now replace (pos + S (length u)) with (S pos + length u) by lia.
      * exfalso.
        apply (@star_greedy_complete R p k (S pos) [] s);
          [reflexivity|apply Hk|exact E].
    + exists [], (c :: s). now rewrite Nat.add_0_r.
Qed.

Lemma date_pre_words (pos : nat) (w : jsstring) :
  accepts pos (pre date_re) w
  <-> exists ws, w = js "date:" ++ ws /\ forallb is_space ws = true.
Proof.
  change (pre date_re) with (map lit (js "date:") ++ [Star true is_space]).
  rewrite accepts_lits. simpl accepts. split.
  - intros (v & -> & ws & v' & -> & Hws & ->). exists ws. now rewrite app_nil_r.
  - intros (ws & -> & Hws). eexists. split; [reflexivity|].
    exists ws, []. now rewrite app_nil_r.
Qed.

Lemma date_match_at (pos : nat) (s : jsstring) (m : match_array) :
  match_at date_re pos s = Some m ->
  exists w1 c u b,
    s = w1 ++ (c :: u) ++ b /\
    accepts pos (pre date_re) w1 /\
    is_dot c = true /\ forallb is_dot u = true /\
    match b with [] => True | x :: _ => is_dot x = false end /\
    m1 m = c :: u.
Proof.
  unfold match_at. intros H.
  apply run_sound in H as (w1 & s1 & -> & H1 & H).
  change (group date_re) with [Chr is_dot; Star true is_dot] in H.
  change (Regex.post date_re) with (@nil node) in H.
  cbn [run] in H.
  destruct s1 as [|c s1]; [discriminate|]. destruct (is_dot c) eqn:Hc; [|discriminate].
  apply star_greedy_longest in H as (u & b & -> & Hu & Hk & Hend); [|discriminate].
  exists w1, c, u, b. repeat split; try assumption.
  assert (Em : m = {| m0 := firstn (S (pos + length w1) + length u - pos)
                                   (w1 ++ c :: u ++ b);
                      m1 := firstn (S (pos + length w1) + length u - (pos + length w1))
                                   (c :: u ++ b) |}) by congruence.
  rewrite Em. unfold m1.
  replace (S (pos + length w1) + length u - (pos + length w1))
    with (length (c :: u)) by (cbn [length]; lia).
  apply (firstn_length_app (c :: u) b).
Qed.

(** X5: an extracted date string starts after [date:] and white space
    and runs to the end of its line: it is not empty, holds no line
    terminator, and is followed by a line terminator or by nothing. *)
Theorem date_runs_to_end_of_line (frontmatter : jsstring) (m : match_array) :
  match_ frontmatter date_re = Some m ->
  exists a ws b,
    frontmatter = a ++ js "date:" ++ ws ++ m1 m ++ b /\
    group_or_empty (match_ frontmatter date_re) = m1 m /\
    forallb is_space ws = true /\
    m1 m <> [] /\ forallb is_dot (m1 m) = true /\
    match b with [] => True | x :: _ => is_dot x = false end.
Proof.
  intros H. rewrite H. unfold match_ in H.
  apply search_sound in H as (a & t & -> & Hm & _).
  apply date_match_at in Hm as (w1 & c & u & b & -> & H1 & Hc & Hu & Hend & E).
  apply date_pre_words in H1 as (ws & -> & Hws).
  exists a, ws, b. simpl group_or_empty. rewrite E.
  repeat split; try assumption.
  - discriminate.
  - simpl. now rewrite Hc, Hu.
Qed.

Lemma date_runs_to_end_of_line_witness :
  exists a ws b,
    js "date: 2025-05-18 # draft" ++ newline ++ js "tags: []"
    = a ++ js "date:" ++ ws ++ js "2025-05-18 # draft" ++ b /\
    group_or_empty (match_ (js "date: 2025-05-18 # draft" ++ newline ++ js "tags: []") date_re)
    = js "2025-05-18 # draft" /\
    forallb is_space ws = true /\
    js "2025-05-18 # draft" <> [] /\ forallb is_dot (js "2025-05-18 # draft") = true /\
    match b with [] => True | x :: _ => is_dot x = false end.
Proof.
  apply (@date_runs_to_end_of_line
           (js "date: 2025-05-18 # draft" ++ newline ++ js "tags: []")
           {| m0 := js "date: 2025-05-18 # draft"; m1 := js "2025-05-18 # draft" |}).
  vm_compute. reflexivity.
Defined.

(** ** The header block *)

Lemma startsWith_true (s p : jsstring) :
  startsWith s p = true <-> exists t, s = p ++ t.
Proof.
  revert s. induction p as [|x p IH]; intros s; simpl.
  - split; eauto.
  - destruct s as [|y s].
    + split; [discriminate|]. now intros (t & Ht).
    + rewrite andb_true_iff, N.eqb_eq, IH. split.
      * intros (-> & t & ->). eauto.
      * intros (t & Ht). injection Ht as -> ->. eauto.
Qed.

Lemma indexOf_Some_first (s p : jsstring) (i : nat) :
  indexOf s p = Some i ->
  exists a b, s = a ++ p ++ b /\ length a = i /\
              forall a' b', s = a' ++ p ++ b' -> i <= length a'.
Proof.
  revert i. induction s as [|c s IH]; intros i H; cbn [indexOf] in H.
  - destruct (startsWith [] p) eqn:E; [|discriminate]. injection H as <-.
    apply startsWith_true in E as (t & Ht). exists [], t.
    repeat split; [assumption|]. intros; lia.
  - destruct (startsWith (c :: s) p) eqn:E.
    + injection H as <-. apply startsWith_true in E as (t & Ht). exists [], t.
      repeat split; [assumption|]. intros; lia.
    + destruct (indexOf s p) as [j|] eqn:Ej; [|discriminate]. injection H as <-.
      destruct (IH _ eq_refl) as (a & b & -> & <- & Hmin).
      exists (c :: a), b. repeat split.
      intros a' b' Hs. destruct a' as [|c' a'].
      * simpl in Hs. assert (startsWith (c :: a ++ p ++ b) p = true); [|congruence].
        apply startsWith_true. eauto.
      * injection Hs as <- Hs. simpl. apply le_n_S. eapply Hmin. exact Hs.
Qed.

Lemma indexOf_None_absent (s p a b : jsstring) :
  indexOf s p = None -> s <> a ++ p ++ b.
Proof.
  revert s. induction a as [|c a IH]; intros s H Hs; subst s.
  - simpl in H. destruct (p ++ b) eqn:E; cbn [indexOf] in H.
    + assert (startsWith [] p = true) by (apply startsWith_true; exists b; now rewrite E).
      destruct (startsWith [] p); discriminate.
    + assert (startsWith (c :: l) p = true) by (apply startsWith_true; exists b; now rewrite E).
      destruct (startsWith (c :: l) p); discriminate.
  - change ((c :: a) ++ p ++ b) with (c :: (a ++ p ++ b)) in H. cbn [indexOf] in H.
    destruct (startsWith (c :: a ++ p ++ b) p); [discriminate|].
    destruct (indexOf (a ++ p ++ b) p) eqn:E; [discriminate|].
    now apply (IH _ E).
Qed.

(** X6: a document has a header block for the script exactly when it
    reads [---], a line feed, a block, a line feed and [---]; the block
    extracted is the shortest one, so it ends before the first line that
    starts with [---]. *)
Theorem header_block_is_shortest (content : jsstring) :
  (match_ content frontmatter_re <> None
   <-> exists block rest,
         content = js "---" ++ newline ++ block ++ newline ++ js "---" ++ rest) /\
  forall m, match_ content frontmatter_re = Some m ->
    (exists rest, content = js "---" ++ newline ++ m1 m ++ newline ++ js "---" ++ rest) /\
    forall block rest,
      content = js "---" ++ newline ++ block ++ newline ++ js "---" ++ rest ->
      length (m1 m) <= length block.
Proof.
  pose proof (frontmatter_header_block content) as Hb. unfold header_block in Hb.
  split; [split|].
  - intros H. destruct (match_ content frontmatter_re) as [m|]; [|congruence].
    cbn [option_map] in Hb. destruct (startsWith content (js "---" ++ newline)) eqn:E; [|discriminate].
    apply startsWith_true in E as (t & ->).
    change (skipn 4 ((js "---" ++ newline) ++ t)) with t in Hb.
    destruct (indexOf t (newline ++ js "---")) as [i|] eqn:Ei; [|discriminate].
    apply indexOf_Some_first in Ei as (a & b & -> & _ & _).
    exists a, b. now rewrite <- !app_assoc.
  - intros (block & rest & ->) H. rewrite H in Hb. cbn [option_map] in Hb.
    change (skipn 4 (js "---" ++ newline ++ block ++ newline ++ js "---" ++ rest))
      with (block ++ newline ++ js "---" ++ rest) in Hb.
    replace (startsWith (js "---" ++ newline ++ block ++ newline ++ js "---" ++ rest)
                        (js "---" ++ newline)) with true in Hb
      by (symmetry; apply startsWith_true; eexists; now rewrite <- !app_assoc).
    destruct (indexOf (block ++ newline ++ js "---" ++ rest) (newline ++ js "---")) eqn:Ei;
      [discriminate|].
    apply (@indexOf_None_absent _ _ block rest Ei). now rewrite <- !app_assoc.
  - intros m Hm. rewrite Hm in Hb. cbn [option_map] in Hb.
    destruct (startsWith content (js "---" ++ newline)) eqn:E; [|discriminate].
    apply startsWith_true in E as (t & ->).
    change (skipn 4 ((js "---" ++ newline) ++ t)) with t in Hb.
    destruct (indexOf t (newline ++ js "---")) as [i|] eqn:Ei; [|discriminate].
    injection Hb as Hb.
    apply indexOf_Some_first in Ei as (a & b & -> & <- & Hmin).
    rewrite firstn_length_app in Hb. rewrite Hb. split.
    + exists b. now rewrite <- !app_assoc.
    + intros block rest Hs. apply (Hmin block rest).
      simpl in Hs. injection Hs as Hs. exact Hs.
Qed.

(** ** The walk of the content directory *)

Lemma file_at_nonempty (entries : list entry) (text : jsstring) :
  ~ file_at entries [] text.
Proof. intros H. inversion H. Qed.

Lemma file_at_incl (l l' : list entry) (path : list jsstring) (text : jsstring) :
  file_at l path text -> (forall e, In e l -> In e l') -> file_at l' path text.
Proof.
  intros H Hincl. destruct H as [l name text Hin|l sub name path text Hin Hsub].
  - apply at_file. auto.
  - apply at_dir with (sub := sub); auto.
Qed.

Lemma find_entry_sound (pf : platform) (e : entry) :
  forall dir f, In f (find_entry pf dir e) ->
  exists segs name text,
    file_at [e] (segs ++ [name]) text /\ endsWith name (js ".md") = true /\
    f = {| relativePath := relative pf (dir ++ segs ++ [name]); content := text |}.
Proof.
  induction e as [name text|name entries IH] using entry_induction; intros dir f Hf.
  - simpl in Hf. destruct (endsWith name (js ".md")) eqn:E; [|destruct Hf].
    destruct Hf as [<-|[]]. exists [], name, text. repeat split; [|assumption].
    apply at_file. now left.
  - simpl in Hf. apply in_flat_map in Hf as (e' & He' & Hf).
    rewrite Forall_forall in IH.
    destruct (IH e' He' _ _ Hf) as (segs & n & text & Hat & Hmd & ->).
    exists (name :: segs), n, text. repeat split; [|assumption|].
    + simpl. apply at_dir with (sub := entries); [now left|].
      eapply file_at_incl; [exact Hat|]. now intros e [<-|[]].
    + now rewrite <- app_assoc.
Qed.

Lemma find_complete (pf : platform) (entries : list entry) (path : list jsstring)
      (text : jsstring) :
  file_at entries path text ->
  forall dir segs name,
    path = segs ++ [name] -> endsWith name (js ".md") = true ->
    In {| relativePath := relative pf (dir ++ segs ++ [name]); content := text |}
       (findMarkdownFiles pf dir entries).
Proof.
  induction 1 as [entries name0 text Hin|entries sub name0 path text Hin Hsub IH];
    intros dir segs name Hp Hmd; unfold findMarkdownFiles; apply in_flat_map.
  - destruct segs as [|? [|? ?]]; try discriminate. injection Hp as <-.
    exists (File name0 text). split; [assumption|]. simpl. rewrite Hmd. now left.
  - destruct segs as [|s segs].
    + injection Hp as -> ->. now apply file_at_nonempty in Hsub.
    + injection Hp as -> ->. exists (Dir s sub). split; [assumption|].
      simpl. specialize (IH (dir ++ [s]) segs name eq_refl Hmd).
      now rewrite <- app_assoc in IH.
Qed.

(** X7: the walk lists a file exactly when the file lies under the
    directory, at any depth, and its own name ends in [.md]; directories
    are descended whatever their name and never listed; the relative path
    of the file is the names from the directory down to it, joined by the
    separator of the platform. *)
Theorem discovered_iff_markdown_file (pf : platform) (entries : list entry)
        (f : mdfile) :
  In f (findMarkdownFiles pf [] entries)
  <-> exists segs name,
        file_at entries (segs ++ [name]) (content f) /\
        endsWith name (js ".md") = true /\
        relativePath f = relative pf (segs ++ [name]).
Proof.
  split.
  - unfold findMarkdownFiles. intros H. apply in_flat_map in H as (e & He & H).
    apply find_entry_sound in H as (segs & name & text & Hat & Hmd & ->).
    exists segs, name. repeat split; [|assumption].
    simpl. eapply file_at_incl; [exact Hat|]. now intros e' [<-|[]].
  - intros (segs & name & Hat & Hmd & Hrel). destruct f as [rel text]. simpl in *.
    subst rel. apply (find_complete pf Hat [] segs name eq_refl Hmd).
Qed.

(** ** The platform *)

Lemma slashes_app (a b : jsstring) : slashes (a ++ b) = slashes a ++ slashes b.
Proof. apply map_app. Qed.

Lemma slashes_relative (segs : list jsstring) :
  slashes (relative win32 segs) = slashes (relative posix segs).
Proof.
  induction segs as [|name [|name' rest] IH]; try reflexivity.
  change (relative win32 (name :: name' :: rest))
    with (name ++ sep win32 ++ relative win32 (name' :: rest)).
  change (relative posix (name :: name' :: rest))
    with (name ++ sep posix ++ relative posix (name' :: rest)).
  rewrite !slashes_app, IH. reflexivity.
Qed.

Lemma startsWith_slashes_md (s : jsstring) :
  startsWith (slashes s) (js ".md") = startsWith s (js ".md").
Proof.
  destruct s as [|x [|y [|z s]]]; simpl; try reflexivity;
    repeat match goal with
           | |- context [(?a =? 92)%N] => destruct (N.eqb_spec a 92); subst
           end; reflexivity.
Qed.

Lemma indexOf_slashes_md (s : jsstring) :
  indexOf (slashes s) (js ".md") = indexOf s (js ".md").
Proof.
  induction s as [|x s IH]; [reflexivity|].
  change (slashes (x :: s)) with ((if (x =? 92)%N then 47%N else x) :: slashes s).
  cbn [indexOf]. change ((if (x =? 92)%N then 47%N else x) :: slashes s)
    with (slashes (x :: s)).
  now rewrite startsWith_slashes_md, IH.
Qed.

Lemma slashes_replace_md (s : jsstring) :
  slashes (replace s (js ".md") []) = replace (slashes s) (js ".md") [].
Proof.
  unfold replace. rewrite indexOf_slashes_md.
  destruct (indexOf s (js ".md")) as [i|]; [|reflexivity].
  unfold slashes, replaceAllChar.
  now rewrite map_app, firstn_map, skipn_map.
Qed.

Lemma slug_of_relative (segs : list jsstring) :
  slug_of (relative win32 segs) = slug_of (relative posix segs).
Proof. unfold slug_of. now rewrite !slashes_replace_md, slashes_relative. Qed.

Lemma post_of_platform (Date_parse : jsstring -> number) (e : entry) :
  forall dir,
    map (post_of Date_parse) (find_entry win32 dir e)
    = map (post_of Date_parse) (find_entry posix dir e).
Proof.
  induction e as [name text|name entries IH] using entry_induction; intros dir.
  - simpl. destruct (endsWith name (js ".md")); [|reflexivity]. simpl. f_equal.
    unfold post_of. simpl. now rewrite slug_of_relative.
  - simpl. rewrite !flat_map_concat_map, !concat_map, !map_map. f_equal.
    apply map_ext_in. intros e He. rewrite Forall_forall in IH. now apply IH.
Qed.

(** X8: the post list does not depend on the platform: the relative
    paths are joined by a backslash on Windows and by a slash elsewhere,
    and the slugs, hence the records and the lines written, are the
    same. *)
Theorem posts_same_on_every_platform (Date_parse : jsstring -> number)
        (entries : list entry) :
  blogPosts Date_parse (findMarkdownFiles win32 [] entries)
  = blogPosts Date_parse (findMarkdownFiles posix [] entries) /\
  post_list (blogPosts Date_parse (findMarkdownFiles win32 [] entries))
  = post_list (blogPosts Date_parse (findMarkdownFiles posix [] entries)).
Proof.
  assert (E : blogPosts Date_parse (findMarkdownFiles win32 [] entries)
              = blogPosts Date_parse (findMarkdownFiles posix [] entries)).
  { unfold blogPosts, findMarkdownFiles. do 2 f_equal.
    rewrite !flat_map_concat_map, !concat_map, !map_map. f_equal.
    apply map_ext. intros e. apply post_of_platform. }
  now rewrite E.
Qed.

(** ** The sort of the posts *)

Lemma before_by_date_lt (a b : post) :
  before by_date a b <-> lt (date a) (date b) = false.
Proof.
  unfold before, Array.SortCompare, by_date.
  destruct (date a), (date b); simpl; try (split; [reflexivity|lia]).
  rewrite Z.ltb_ge. lia.
Qed.

(** X9: with dates that all parsed, the post list is the only
    arrangement of the records that is in non-increasing order of date and
    keeps the discovery order of the posts of one date: every conforming
    sort returns it. *)
Theorem posts_order_unique (Date_parse : jsstring -> number)
        (files : list mdfile) (l : list post) :
  Forall valid (records Date_parse files) ->
  Permutation l (records Date_parse files) ->
  non_increasing l ->
  (forall t, filter (dated t) l = filter (dated t) (records Date_parse files)) ->
  l = blogPosts Date_parse files.
Proof.
  intros Hv P S F. unfold blogPosts. fold (records Date_parse files).
  assert (Hvl : Forall valid l)
    by (eapply Permutation_Forall; [symmetry; exact P|exact Hv]).
  assert (Heq : forall x l', valid x -> Forall valid l' ->
            exists t, date x = Num t /\ filter (equivb by_date x) l' = filter (dated t) l').
  { intros x l' Hx Hl'. unfold valid in Hx. destruct (date x) as [|t] eqn:Ex; [congruence|].
    exists t. split; [reflexivity|]. apply filter_ext_in. intros y Hy.
    rewrite Forall_forall in Hl'. specialize (Hl' y Hy). unfold valid in Hl'.
    unfold equivb, dated, Array.SortCompare, by_date. rewrite Ex.
    destruct (date y) as [|u]; [congruence|]. simpl.
    destruct (Z.eqb_spec u t), (Z.leb_spec (u - t) 0), (Z.leb_spec (t - u) 0);
      simpl; try reflexivity; lia. }
  apply sort_unique with (ok := valid); try assumption.
  - apply by_date_total.
  - apply by_date_trans.
  - eapply StronglySorted_impl_In; [|exact S]. intros x y Hx Hy Hge.
    apply before_by_date_lt. unfold ge, lt in *.
    destruct (date x), (date y); try reflexivity. apply Z.leb_le in Hge.
    apply Z.ltb_ge. lia.
  - intros x Hx.
    destruct (Heq x l Hx Hvl) as (t & Et & ->).
    destruct (Heq x _ Hx Hv) as (t' & Et' & ->).
    assert (t' = t) by congruence. subst. apply F.
Qed.

Lemma posts_order_unique_witness :
  [ {| title := js "B"; date := Num 1747526400000; slug := js "b" |};
    {| title := js "C"; date := Num 1747526400000; slug := js "c" |};
    {| title := js "A"; date := Num 1744588800000; slug := js "a" |} ]
  = blogPosts Instance.Date_parse
      [sample_file "a.md" ["title: 'A'"; "date: 2025-04-14"];
       sample_file "b.md" ["title: 'B'"; "date: 2025-05-18"];
       sample_file "c.md" ["title: 'C'"; "date: 2025-05-18"]].
Proof.
  assert (E : records Instance.Date_parse
                [sample_file "a.md" ["title: 'A'"; "date: 2025-04-14"];
                 sample_file "b.md" ["title: 'B'"; "date: 2025-05-18"];
                 sample_file "c.md" ["title: 'C'"; "date: 2025-05-18"]]
              = [ {| title := js "A"; date := Num 1744588800000; slug := js "a" |};
                  {| title := js "B"; date := Num 1747526400000; slug := js "b" |};
                  {| title := js "C"; date := Num 1747526400000; slug := js "c" |} ])
    by (vm_compute; reflexivity).
  apply posts_order_unique; try rewrite E.
  - repeat constructor; discriminate.
  - symmetry. apply Permutation_cons_app with (l1 := [_; _]) (l2 := []). reflexivity.
  - unfold non_increasing. repeat constructor.
  - intros t. unfold dated. cbn [filter date].
    destruct (Z.eqb_spec 1747526400000 t), (Z.eqb_spec 1744588800000 t);
      try reflexivity. exfalso. lia.
Defined.

(** X10: for every input, dates that did not parse included, a list of
    records in which no post comes above a post of a later date is left as
    it is by the sort. *)
Theorem sorted_posts_unchanged (Date_parse : jsstring -> number) (files : list mdfile) :
  StronglySorted (fun a b => lt (date a) (date b) = false) (records Date_parse files) ->
  blogPosts Date_parse files = records Date_parse files.
Proof.
  intros S. unfold blogPosts. fold (records Date_parse files). apply sort_id.
  eapply StronglySorted_impl; [|exact S]. intros a b. apply before_by_date_lt.
Qed.

Lemma sorted_posts_unchanged_witness :
  blogPosts Instance.Date_parse
    [sample_file "b.md" ["title: 'B'"; "date: 2025-05-18"];
     sample_file "n.md" ["title: 'No date'"];
     sample_file "a.md" ["title: 'A'"; "date: 2025-04-14"]]
  = records Instance.Date_parse
      [sample_file "b.md" ["title: 'B'"; "date: 2025-05-18"];
       sample_file "n.md" ["title: 'No date'"];
       sample_file "a.md" ["title: 'A'"; "date: 2025-04-14"]].
Proof.
  apply sorted_posts_unchanged.
  replace (records Instance.Date_parse
             [sample_file "b.md" ["title: 'B'"; "date: 2025-05-18"];
              sample_file "n.md" ["title: 'No date'"];
              sample_file "a.md" ["title: 'A'"; "date: 2025-04-14"]])
    with [ {| title := js "B"; date := Num 1747526400000; slug := js "b" |};
           {| title := js "No date"; date := NaN; slug := js "n" |};
           {| title := js "A"; date := Num 1744588800000; slug := js "a" |} ]
    by (vm_compute; reflexivity).
  repeat constructor.
Defined.

Lemma records_length (Date_parse : jsstring -> number) (files : list mdfile) :
  length (records Date_parse files)
  = length (filter (fun f => match header_block (content f) with
                             | Some _ => true
                             | None => false
                             end) files).
Proof.
  unfold records. induction files as [|f files IH]; [reflexivity|]. simpl.
  rewrite <- frontmatter_header_block. unfold post_of at 1.
  destruct (match_ (content f) frontmatter_re); simpl; now rewrite IH.
Qed.

(** X11: for every input, dates that did not parse included, the sort
    loses no post and repeats none: the post list is a rearrangement of the
    records, and it has one entry for each discovered document that has a
    header block.  Nothing is said of the order, which the language leaves
    to the engine when a date did not parse. *)
Theorem sort_keeps_posts (Date_parse : jsstring -> number) (files : list mdfile) :
  Permutation (blogPosts Date_parse files) (records Date_parse files) /\
  length (blogPosts Date_parse files)
  = length (filter (fun f => match header_block (content f) with
                             | Some _ => true
                             | None => false
                             end) files).
Proof.
  split; [apply blogPosts_Permutation|].
  rewrite (Permutation_length (blogPosts_Permutation Date_parse files)).
  apply records_length.
Qed.

(** ** The run as a whole *)

Lemma cvesByYear_Normal_plain (cves : list cve) (o : Obj.t) :
  cvesByYear cves = Normal o ->
  Forall (fun c => inherited_name (cve_date c) = false) cves.
Proof.
  intros H.
  destruct (Forall_Exists_dec (fun c => inherited_name (cve_date c) = false)
              (fun c => bool_dec _ false) cves) as [F|E]; [exact F|].
  rewrite cvesByYear_throws in H; [discriminate|].
  eapply Exists_impl; [|exact E]. intros c Hc. simpl in Hc.
  now destruct (inherited_name (cve_date c)).
Qed.

(** ** The year headings *)

Lemma grouped_group_of_any (cves : list cve) (o : Obj.t) (k : jsstring) :
  grouped cves o -> group_of o k = of_year k cves.
Proof.
  intros [_ Hown]. unfold group_of, Obj.get. rewrite Hown.
  destruct (existsb (fun c => eqb (cve_date c) k) cves) eqn:E; [reflexivity|].
  assert (Hnil : of_year k cves = []).
  { unfold of_year. clear - E. induction cves as [|c cves IH]; [reflexivity|].
    simpl in *. apply orb_false_iff in E as [-> E]. auto. }
  rewrite Hnil. now destruct (existsb (eqb k) Obj.prototype).
Qed.

Lemma of_year_Permutation (k : jsstring) (l l' : list cve) :
  Permutation l l' -> Permutation (of_year k l) (of_year k l').
Proof.
  unfold of_year. induction 1 as [|x l l' P IH|x y l|l1 l2 l3 P1 IH1 P2 IH2]; simpl.
  - reflexivity.
  - destruct (eqb (cve_date x) k); [now constructor|assumption].
  - destruct (eqb (cve_date x) k), (eqb (cve_date y) k); try reflexivity.
    apply perm_swap.
  - now transitivity (filter (fun c => eqb (cve_date c) k) l2).
Qed.

Lemma sorted_Permutation_eq (A : Type) (R : A -> A -> Prop) (l1 l2 : list A) :
  (forall a b, In a l1 -> In b l1 -> R a b -> R b a -> a = b) ->
  StronglySorted R l1 -> StronglySorted R l2 -> Permutation l1 l2 -> l1 = l2.
Proof.
  revert l2. induction l1 as [|a1 t1 IH]; intros l2 Hanti S1 S2 P.
  - apply Permutation_nil in P. now subst.
  - destruct l2 as [|a2 t2]; [symmetry in P; now apply Permutation_nil in P|].
    inversion S1 as [|? ? S1' F1]; subst. inversion S2 as [|? ? S2' F2]; subst.
    rewrite Forall_forall in F1, F2.
    assert (a1 = a2) as <-.
    { assert (In a2 (a1 :: t1)) as [E|H2]
        by (eapply Permutation_in; [symmetry; exact P|now left]); [exact E|].
      assert (In a1 (a2 :: t2)) as [E|H1]
        by (eapply Permutation_in; [exact P|now left]); [now symmetry|].
      apply Hanti; [now left|now right|auto|auto]. }
    f_equal. apply IH; try assumption.
    + intros a b Ha Hb. apply Hanti; now right.
    + now apply Permutation_cons_inv in P.
Qed.

(** X13: the year headings of the document do not depend on the order of
    the advisories in the file, when the collation orders the years of the
    advisories and tells any two different ones apart: reordering the
    advisories gives the same headings in the same order, and under each
    heading the same advisories. *)
Theorem headings_ignore_input_order
        (localeCompare : jsstring -> jsstring -> Z) (cves cves' : list cve) (o : Obj.t) :
  collation localeCompare (year_fields cves) ->
  (forall a b, In a (year_fields cves) -> In b (year_fields cves) ->
               localeCompare a b = 0%Z -> a = b) ->
  Permutation cves cves' ->
  cvesByYear cves = Normal o ->
  exists o',
    cvesByYear cves' = Normal o' /\
    years localeCompare o' = years localeCompare o /\
    forall year, Permutation (group_of o' year) (group_of o year).
Proof.
  intros Hcol Hstrict P Ho.
  pose proof (cvesByYear_grouped _ Ho) as Hg.
  pose proof (cvesByYear_Normal_plain _ Ho) as F.
  assert (F' : Forall (fun c => inherited_name (cve_date c) = false) cves')
    by (eapply Permutation_Forall; eassumption).
  destruct (cvesByYear_ok F') as (o' & Ho' & Hg'). exists o'.
  assert (Hkeys : Permutation (map fst o') (map fst o)).
  { apply NoDup_Permutation; [apply Hg'|apply Hg|].
    intros k. rewrite (grouped_keys k Hg'), (grouped_keys k Hg).
    split; intros (c & Hc & E); exists c; split; try assumption.
    - eapply Permutation_in; [symmetry; exact P|exact Hc].
    - eapply Permutation_in; [exact P|exact Hc]. }
  assert (Hin' : forall k, In k (map fst o') -> In k (year_fields cves)).
  { intros k Hk. apply (grouped_year_fields _ Hg).
    now apply (Permutation_in _ Hkeys). }
  split; [exact Ho'|]. split.
  - apply sorted_Permutation_eq with (R := fun a b => (localeCompare b a <= 0)%Z).
    + intros a b Ha Hb Hab Hba.
      assert (Ha' : In a (year_fields cves)).
      { apply Hin'. now apply (Permutation_in _ (years_Permutation localeCompare o')). }
      assert (Hb' : In b (year_fields cves)).
      { apply Hin'. now apply (Permutation_in _ (years_Permutation localeCompare o')). }
      destruct Hcol as [Hsign _].
      apply Hstrict; try assumption. pose proof (Hsign b a Hb' Ha') as Hs. lia.
    + now apply (years_descending o' Hcol).
    + apply (years_descending o Hcol). intros k. apply (grouped_year_fields k Hg).
    + now rewrite !years_Permutation.
  - intros year. rewrite (grouped_group_of_any year Hg'), (grouped_group_of_any year Hg).
    apply of_year_Permutation. now symmetry.
Qed.

Lemma headings_ignore_input_order_witness :
  exists o',
    cvesByYear [advisory "CVE-2022-1" "2022"; advisory "CVE-2023-2" "2023";
                advisory "CVE-2024-1" "2024"; advisory "CVE-2023-1" "2023"]
    = Normal o' /\
    years Instance.localeCompare o' = years Instance.localeCompare sample_groups /\
    forall year, Permutation (group_of o' year) (group_of sample_groups year).
Proof.
  apply (@headings_ignore_input_order Instance.localeCompare sample_cves).
  - apply instance_collation.
  - intros a b Ha Hb. simpl in Ha, Hb.
    repeat (destruct Ha as [<-|Ha]; [|]); try (destruct Ha);
      repeat (destruct Hb as [<-|Hb]; [|]); try (destruct Hb);
      vm_compute; intros H; (reflexivity || discriminate).
  - apply (Permutation_rev sample_cves).
  - vm_compute. reflexivity.
Defined.

(** ** Relative paths and slugs of the discovered files *)

Lemma well_formed_Dir (pf : platform) (name : jsstring) (entries : list entry) :
  well_formed pf (Dir name entries) ->
  ~ In (sep_char pf) name /\ NoDup (map name_of entries)
  /\ Forall (well_formed pf) entries.
Proof.
  simpl. intros (Hn & Hnd & Hall). repeat split; try assumption.
  induction entries as [|e es IH]; constructor.
  - apply Hall.
  - apply IH; [now inversion Hnd|apply Hall].
Qed.

Lemma sep_is_char (pf : platform) : sep pf = [sep_char pf].
Proof. now destruct pf. Qed.

Lemma split_at_separator (c : char) (n m x y : jsstring) :
  ~ In c n -> ~ In c m -> n ++ c :: x = m ++ c :: y -> n = m /\ x = y.
Proof.
  revert m. induction n as [|a n IH]; intros [|b m] Hn Hm H; simpl in *.
  - injection H as ->. auto.
  - injection H as <- _. tauto.
  - injection H as -> _. tauto.
  - injection H as -> H. destruct (IH m) as [-> ->]; tauto.
Qed.

Lemma relative_cons (pf : platform) (n n' : jsstring) (rest : list jsstring) :
  relative pf (n :: n' :: rest) = n ++ sep_char pf :: relative pf (n' :: rest).
Proof.
  change (relative pf (n :: n' :: rest)) with (n ++ sep pf ++ relative pf (n' :: rest)).
  now rewrite sep_is_char.
Qed.

(** Joining names that hold no separator loses nothing. *)
Lemma relative_injective (pf : platform) (p q : list jsstring) :
  p <> [] -> q <> [] ->
  Forall (fun n => ~ In (sep_char pf) n) p ->
  Forall (fun n => ~ In (sep_char pf) n) q ->
  relative pf p = relative pf q -> p = q.
Proof.
  revert q. induction p as [|n p IH]; intros q Hp Hq Fp Fq E; [congruence|].
  destruct q as [|m q]; [congruence|].
  inversion Fp as [|? ? Hn Fp']; subst. inversion Fq as [|? ? Hm Fq']; subst.
  destruct p as [|n' p], q as [|m' q].
  - simpl in E. now subst.
  - rewrite relative_cons in E. simpl in E. exfalso. apply Hn. rewrite E. apply in_elt.
  - rewrite relative_cons in E. simpl in E. exfalso. apply Hm. rewrite <- E. apply in_elt.
  - rewrite !relative_cons in E.
    apply split_at_separator in E as [-> E]; try assumption.
    f_equal. apply IH; try assumption; discriminate.
Qed.

Lemma entry_paths_relative (pf : platform) (e : entry) :
  forall dir, map relativePath (find_entry pf dir e)
              = map (relative pf) (entry_paths dir e).
Proof.
  induction e as [name text|name entries IH] using entry_induction; intros dir.
  - simpl. now destruct (endsWith name (js ".md")).
  - simpl. rewrite !flat_map_concat_map, !concat_map, !map_map. f_equal.
    apply map_ext_in. intros e He. rewrite Forall_forall in IH. now apply IH.
Qed.

Lemma entry_paths_prefix (e : entry) :
  forall dir p, In p (entry_paths dir e) -> exists rest, p = dir ++ name_of e :: rest.
Proof.
  induction e as [name text|name entries IH] using entry_induction; intros dir p Hp.
  - simpl in Hp. destruct (endsWith name (js ".md")); [|destruct Hp].
    destruct Hp as [<-|[]]. now exists [].
  - simpl in Hp. apply in_flat_map in Hp as (e & He & Hp).
    rewrite Forall_forall in IH. destruct (IH e He _ _ Hp) as (rest & ->).
    exists (name_of e :: rest). now rewrite <- app_assoc.
Qed.

Lemma entry_paths_names (pf : platform) (e : entry) :
  forall dir p, well_formed pf e ->
    Forall (fun n => ~ In (sep_char pf) n) dir ->
    In p (entry_paths dir e) -> Forall (fun n => ~ In (sep_char pf) n) p.
Proof.
  induction e as [name text|name entries IH] using entry_induction;
    intros dir p Hwf Hdir Hp.
  - simpl in Hp. destruct (endsWith name (js ".md")); [|destruct Hp].
    destruct Hp as [<-|[]]. apply Forall_app. split; [assumption|].
    constructor; [apply Hwf|constructor].
  - apply well_formed_Dir in Hwf as (Hn & _ & Hall).
    simpl in Hp. apply in_flat_map in Hp as (e & He & Hp).
    rewrite Forall_forall in IH, Hall.
    eapply (IH e He); [apply Hall; exact He| |exact Hp].
    apply Forall_app. split; [assumption|]. now repeat constructor.
Qed.

Lemma flat_map_paths_NoDup (entries : list entry) (dir : list jsstring) :
  NoDup (map name_of entries) ->
  Forall (fun e => NoDup (entry_paths dir e)) entries ->
  NoDup (flat_map (entry_paths dir) entries).
Proof.
  induction entries as [|e es IH]; intros Hnd Hall; simpl; [constructor|].
  inversion Hnd as [|? ? Hne Hnd']; subst. inversion Hall as [|? ? He Hes]; subst.
  apply NoDup_app; [assumption|now apply IH|].
  intros p Hp Hp'. apply in_flat_map in Hp' as (e' & He' & Hp').
  apply entry_paths_prefix in Hp as (rest & ->).
  apply entry_paths_prefix in Hp' as (rest' & E).
  apply app_inv_head in E. injection E as E _.
  apply Hne. rewrite E. now apply in_map.
Qed.

Lemma entry_paths_NoDup (pf : platform) (e : entry) :
  forall dir, well_formed pf e -> NoDup (entry_paths dir e).
Proof.
  induction e as [name text|name entries IH] using entry_induction; intros dir Hwf.
  - simpl. destruct (endsWith name (js ".md")); repeat constructor. simpl. tauto.
  - apply well_formed_Dir in Hwf as (_ & Hnd & Hall). simpl.
    apply flat_map_paths_NoDup; [assumption|].
    rewrite Forall_forall in *. auto.
Qed.

(** X14: in a tree in which no name holds the separator and the entries
    of a directory have different names, the discovered files have
    different relative paths. *)
Theorem relative_paths_distinct (pf : platform) (entries : list entry) :
  NoDup (map name_of entries) ->
  Forall (well_formed pf) entries ->
  NoDup (map relativePath (findMarkdownFiles pf [] entries)).
Proof.
  intros Hnd Hwf. unfold findMarkdownFiles.
  assert (E : map relativePath (flat_map (find_entry pf []) entries)
              = map (relative pf) (flat_map (entry_paths []) entries)).
  { rewrite !flat_map_concat_map, !concat_map, !map_map. f_equal.
    apply map_ext. intros e. apply entry_paths_relative. }
  rewrite E. apply NoDup_map_NoDup_ForallPairs.
  - intros p q Hp Hq Hrel.
    apply in_flat_map in Hp as (e & He & Hp). apply in_flat_map in Hq as (e' & He' & Hq).
    rewrite Forall_forall in Hwf.
    apply (relative_injective pf); try assumption.
    + apply entry_paths_prefix in Hp as (rest & ->). discriminate.
    + apply entry_paths_prefix in Hq as (rest & ->). discriminate.
    + eapply entry_paths_names; [apply Hwf; exact He|constructor|exact Hp].
    + eapply entry_paths_names; [apply Hwf; exact He'|constructor|exact Hq].
  - apply flat_map_paths_NoDup; [assumption|].
    rewrite Forall_forall in *. intros e He. apply (entry_paths_NoDup pf); auto.
Qed.

Lemma relative_paths_distinct_witness :
  NoDup (map relativePath (findMarkdownFiles posix [] sample_blog)).
Proof.
  apply relative_paths_distinct.
  - vm_compute. repeat constructor; simpl; intuition discriminate.
  - unfold sample_blog.
    repeat (first [apply Forall_cons | apply Forall_nil]);
      vm_compute; intuition (try discriminate);
      repeat constructor; simpl; intuition discriminate.
Defined.

Lemma skipn_length_app (A : Type) (a b : list A) :
  skipn (length a) (a ++ b) = b.
Proof. induction a as [|x a IH]; [reflexivity|exact IH]. Qed.

Lemma replace_found (s p : jsstring) (i : nat) :
  indexOf s p = Some i ->
  exists a b, s = a ++ p ++ b /\ replace s p [] = a ++ b.
Proof.
  intros Ei. destruct (indexOf_Some_first _ _ Ei) as (a & b & E & Hi & _).
  exists a, b. split; [exact E|]. unfold replace. rewrite Ei. subst i. simpl.
  rewrite E at 1. rewrite firstn_length_app. f_equal.
  rewrite E, <- length_app, app_assoc. apply skipn_length_app.
Qed.

(** X15: the slug of a discovered file is three characters shorter than
    its relative path, the three of one [.md], and holds no backslash. *)
Theorem slug_of_discovered (pf : platform) (entries : list entry) (f : mdfile) :
  In f (findMarkdownFiles pf [] entries) ->
  length (slug_of (relativePath f)) + 3 = length (relativePath f) /\
  forallb (fun c => negb (c =? 92)%N) (slug_of (relativePath f)) = true.
Proof.
  intros Hf. split.
  - apply findMarkdownFiles_md in Hf as (stem & Hstem).
    destruct (indexOf (relativePath f) (js ".md")) as [i|] eqn:Ei.
    + destruct (replace_found _ _ Ei) as (a & b & E & Hr).
      unfold slug_of, slashes, replaceAllChar. rewrite length_map, Hr, E, !length_app.
      simpl. lia.
    + exfalso. apply (@indexOf_None_absent _ _ stem [] Ei). now rewrite app_nil_r.
  - unfold slug_of, slashes, replaceAllChar. rewrite forallb_forall.
    intros c Hc. apply in_map_iff in Hc as (x & <- & _).
    destruct (N.eqb_spec x 92); [reflexivity|]. now apply negb_true_iff, N.eqb_neq.
Qed.

Lemma slug_of_discovered_witness :
  length (slug_of (relativePath ethernaut)) + 3 = length (relativePath ethernaut) /\
  forallb (fun c => negb (c =? 92)%N) (slug_of (relativePath ethernaut)) = true.
Proof.
  apply (@slug_of_discovered posix sample_blog ethernaut).
  vm_compute. right. left. reflexivity.
Defined.

(** ** What the document holds *)

Lemma holds_app_r (d p x : jsstring) : holds d x -> holds (p ++ d) x.
Proof. intros (a & b & ->). exists (p ++ a), b. now rewrite <- app_assoc. Qed.

Lemma holds_app_l (d q x : jsstring) : holds d x -> holds (d ++ q) x.
Proof. intros (a & b & ->). exists a, (b ++ q). now rewrite <- !app_assoc. Qed.

Lemma holds_refl (x : jsstring) : holds x x.
Proof. exists [], []. now rewrite app_nil_r. Qed.

Lemma holds_concat (l : list jsstring) (x : jsstring) :
  In x l -> holds (concat l) x.
Proof.
  intros H. apply in_split in H as (l1 & l2 & ->).
  rewrite concat_app. simpl. exists (concat l1), (concat l2). reflexivity.
Qed.

Lemma holds_trans (d y x : jsstring) : holds d y -> holds y x -> holds d x.
Proof.
  intros (a & b & ->) Hx. apply holds_app_r, holds_app_l. exact Hx.
Qed.

(** X16: when the run completes, the document holds the line of every
    loaded advisory and the line of every discovered document that has a
    header block. *)
Theorem document_holds_every_line
        (Date_parse : jsstring -> number) (localeCompare : jsstring -> jsstring -> Z)
        (readme_head readme_mid readme_tail : jsstring) (w : world) (cves : list cve) :
  cves_json w = parsed cves ->
  Forall (fun c => inherited_name (cve_date c) = false) cves ->
  exists doc,
    output (after Date_parse localeCompare readme_head readme_mid readme_tail w)
    = Some doc /\
    (forall c, In c cves -> holds doc (cve_line c)) /\
    (forall f p, In f (findMarkdownFiles (os w) [] (blog w)) ->
                 post_of Date_parse f = Some p -> holds doc (post_line p)).
Proof.
  intros Hc F. destruct (cvesByYear_ok F) as (o & Ho & Hg).
  pose proof (main_writes Date_parse localeCompare readme_head readme_mid readme_tail
                          w Hc Ho) as Hm.
  eexists. split; [unfold after; rewrite Hm; reflexivity|]. unfold readme. split.
  - intros c Hin. apply holds_app_r, holds_app_r, holds_app_r, holds_app_l.
    assert (Hy : In (cve_date c) (years localeCompare o)).
    { apply (Permutation_in _ (Permutation_sym (years_Permutation localeCompare o))).
      apply (grouped_keys _ Hg). eauto. }
    apply holds_trans with (y := year_block o (cve_date c)).
    + unfold cve_blocks. apply holds_concat. now apply in_map.
    + rewrite year_block_eq. apply holds_app_r, holds_app_l, holds_concat.
      apply in_map. rewrite (grouped_group_of_any _ Hg). unfold of_year.
      apply filter_In. split; [assumption|apply eqb_refl].
  - intros f p Hf Hp. apply holds_app_r, holds_app_l.
    unfold post_list. apply holds_concat, in_map.
    eapply Permutation_in; [symmetry; apply blogPosts_Permutation|].
    apply In_records. eauto.
Qed.

Lemma document_holds_every_line_witness :
  exists doc,
    output (after Instance.Date_parse Instance.localeCompare
                  (js "<head>") (js "<mid>") (js "<tail>") sample_world)
    = Some doc /\
    (forall c, In c sample_cves -> holds doc (cve_line c)) /\
    (forall f p, In f (findMarkdownFiles posix [] sample_blog) ->
                 post_of Instance.Date_parse f = Some p -> holds doc (post_line p)).
Proof.
  apply (@document_holds_every_line Instance.Date_parse Instance.localeCompare
           (js "<head>") (js "<mid>") (js "<tail>") sample_world sample_cves).
  - reflexivity.
  - repeat constructor.
Defined.

(** ** The grouping *)

(** X17: the grouping ends by an exception exactly when the year of some
    advisory names a property inherited from [Object.prototype], and the
    exception is then a [TypeError]; whenever it returns, the lines under
    the year headings are the lines of the advisories of the input, one
    for each. *)
Theorem grouping_throws_iff (cves : list cve) :
  (cvesByYear cves = Throw TypeError
   <-> exists c, In c cves /\ inherited_name (cve_date c) = true) /\
  (forall e, cvesByYear cves = Throw e -> e = TypeError) /\
  (forall localeCompare o,
      cvesByYear cves = Normal o ->
      Permutation (map cve_line (flat_map (group_of o) (years localeCompare o)))
                  (map cve_line cves)).
Proof.
  assert (Hthrow : forall e, cvesByYear cves = Throw e ->
            e = TypeError /\ exists c, In c cves /\ inherited_name (cve_date c) = true).
  { intros e He.
    destruct (Forall_Exists_dec (fun c => inherited_name (cve_date c) = false)
                (fun c => bool_dec _ false) cves) as [F|E].
    - destruct (cvesByYear_ok F) as (o & Ho & _). congruence.
    - assert (E' : Exists (fun c => inherited_name (cve_date c) = true) cves).
      { eapply Exists_impl; [|exact E]. intros c Hc. simpl in Hc.
        now destruct (inherited_name (cve_date c)). }
      rewrite (cvesByYear_throws E') in He. injection He as <-.
      split; [reflexivity|]. now apply Exists_exists. }
  split; [split|split].
  - intros H. now apply Hthrow in H.
  - intros (c & Hc & Hi). apply cvesByYear_throws. apply Exists_exists. eauto.
  - intros e He. now apply Hthrow in He.
  - intros localeCompare o Ho. apply Permutation_map. now apply groups_partition.
Qed.

(** ** No post at all *)

(** X18: when no markdown file is found under the content root and the
    advisories load, with ordinary names as years, the run completes with
    exit status 0; the document written has nothing between the fragment
    that opens the post list and the one that closes it, and its advisory
    blocks hold the item of every loaded advisory, each once, under the
    heading of its year. *)
Theorem empty_blog_succeeds
        (Date_parse : jsstring -> number) (localeCompare : jsstring -> jsstring -> Z)
        (readme_head readme_mid readme_tail : jsstring) (w : world) (cves : list cve) :
  findMarkdownFiles (os w) [] (blog w) = [] ->
  cves_json w = parsed cves ->
  Forall (fun c => inherited_name (cve_date c) = false) cves ->
  exists ys,
    main Date_parse localeCompare readme_head readme_mid readme_tail w
    = Normal {| os := os w; cves_json := cves_json w; blog := blog w;
                output :=
                  Some (readme_head ++ readme_mid
                        ++ concat (map (fun year =>
                                          year_heading year
                                          ++ concat (map advisory_item (of_year year cves))
                                          ++ year_closing)
                                       ys)
                        ++ readme_tail) |} /\
    exit_code Date_parse localeCompare readme_head readme_mid readme_tail w = 0%Z /\
    NoDup ys /\
    (forall c, In c cves -> In (cve_date c) ys) /\
    Permutation (flat_map (fun year => of_year year cves) ys) cves.
Proof.
  intros Hfiles Hcves Hyears.
  destruct (cvesByYear_ok Hyears) as (o & Ho & Hg).
  pose proof (main_writes_document Date_parse localeCompare readme_head readme_mid
                readme_tail w Hcves Ho) as Hmain.
  rewrite Hfiles in Hmain.
  pose proof (years_Permutation localeCompare o) as P.
  assert (Hnd : NoDup (years localeCompare o))
    by (apply (Permutation_NoDup (Permutation_sym P)); apply Hg).
  assert (Hall : forall c, In c cves -> In (cve_date c) (years localeCompare o)).
  { intros c Hc. apply (Permutation_in _ (Permutation_sym P)).
    apply (grouped_keys _ Hg). eauto. }
  exists (years localeCompare o).
  split; [exact Hmain|]. split; [unfold exit_code; now rewrite Hmain|].
  split; [exact Hnd|]. split; [exact Hall|]. now apply of_year_partition.
Qed.

Lemma empty_blog_succeeds_witness :
  exists ys,
    sample_main {| os := posix; cves_json := parsed sample_cves;
                   blog := [Dir (js "2025") [File (js "notes.txt") (js "text")]];
                   output := None |}
    = Normal {| os := posix; cves_json := parsed sample_cves;
                blog := [Dir (js "2025") [File (js "notes.txt") (js "text")]];
                output :=
                  Some (js "<head>" ++ js "<mid>"
                        ++ concat (map (fun year =>
                                          year_heading year
                                          ++ concat (map advisory_item
                                                         (of_year year sample_cves))
                                          ++ year_closing)
                                       ys)
                        ++ js "<tail>") |} /\
    exit_code Instance.Date_parse Instance.localeCompare (js "<head>") (js "<mid>") (js "<tail>")
              {| os := posix; cves_json := parsed sample_cves;
                 blog := [Dir (js "2025") [File (js "notes.txt") (js "text")]];
                 output := None |} = 0%Z /\
    NoDup ys /\
    (forall c, In c sample_cves -> In (cve_date c) ys) /\
    Permutation (flat_map (fun year => of_year year sample_cves) ys) sample_cves.
Proof.
  apply (@empty_blog_succeeds Instance.Date_parse Instance.localeCompare
           (js "<head>") (js "<mid>") (js "<tail>")
           {| os := posix; cves_json := parsed sample_cves;
              blog := [Dir (js "2025") [File (js "notes.txt") (js "text")]];
              output := None |} sample_cves).
  - reflexivity.
  - reflexivity.
  - repeat constructor.
Defined.
